(** * Normalization techniques: the notebook and its formulas

    The repository is one Jupyter notebook,
    [Normalization_Techniques/Normalization.ipynb].  Two things are modelled:

    - the notebook as a document (module [Notebook]): its cells with their
      type, identifier and source lines, as the JSON file lists them;
    - the formulas the markdown cells state (modules [Stats], [MinMax],
      [ZScore], [BatchNorm], [LayerNorm]), over the real numbers, with every
      fraction written as a guarded division that has no value when its
      denominator is zero;
    - the two normalization layers on the activations of a whole mini-batch
      (module [Layer]): one function, which takes the mean and the variance
      over the batch or over the features. *)

From Stdlib Require Import Reals Lra Lia List Bool.
From Stdlib Require String.
Import ListNotations.

(** ** The notebook as a document *)

Module Notebook.

Import String.
Local Open Scope string_scope.

(** The ["cell_type"] field of a cell. *)
Inductive cell_kind : Type :=
| Markdown
| Code.

(** A cell: ["cell_type"], ["id"] and ["source"].  Each element of [source] is
    one line of the JSON array, without its end-of-line character. *)
Record cell : Type := {
  cell_type : cell_kind;
  cell_id : string;
  source : list string
}.

Definition cell_data_normalization : cell :=
  {| cell_type := Markdown;
     cell_id := "5f8436c4-1cc9-4fad-8c1c-4e580a83eb11";
     source := [
       "### Data Normalization";
       "";
       "**Definition:**";
       "Data normalization is a preprocessing step applied to numerical data to adjust the values to a common scale without distorting differences in the ranges of values. The goal is to make different features contribute equally to the model’s learning process.";
       "";
       "**Types of Data Normalization:**";
       "";
       "1. **Min-Max Scaling:**";
       "   - Rescales the data to a fixed range, typically $[0, 1]$ or $[-1, 1]$.";
       "   - Formula: $X' = \frac{X - X_{\min}}{X_{\max} - X_{\min}}$";
       "   - **When to Use:** Useful when you know the minimum and maximum values of your data. Works well when the distribution is not Gaussian or if there are no outliers.";
       "";
       "2. **Z-Score Normalization (Standardization):**";
       "   - Transforms the data to have a mean of 0 and a standard deviation of 1.";
       "   - Formula: $X' = \frac{X - \mu}{\sigma}$";
       "   - **When to Use:** Preferred when data follows a Gaussian distribution. Helps in achieving convergence faster for many machine learning algorithms, particularly those that assume a Gaussian distribution of the input data (e.g., linear regression, logistic regression).";
       "";
       "**Why Use Data Normalization:**";
       "";
       "- **Improves Convergence:** Gradient descent converges faster with normalized data because the scale of the features is similar.";
       "- **Prevents Dominance:** Prevents features with larger scales from dominating the learning process.";
       "- **Improves Accuracy:** Can improve the accuracy and performance of the model.";
       "";
       "**How to Use:**";
       "";
       "Normalize features before feeding them into the model using libraries like `scikit-learn`:";
       "```python";
       "from sklearn.preprocessing import MinMaxScaler, StandardScaler";
       "";
       "scaler = MinMaxScaler()  # or StandardScaler()";
       "normalized_data = scaler.fit_transform(data)";
       "```"
     ] |}.

Definition cell_batch_normalization : cell :=
  {| cell_type := Markdown;
     cell_id := "01db4aab-3332-417c-a373-28c15f8ed208";
     source := [
       "### Batch Normalization";
       "";
       "**Definition:**";
       "Batch normalization (BN) is a technique to improve the training of deep neural networks by normalizing the input of each layer within a mini-batch, thus ensuring a stable distribution of activations throughout training.";
       "";
       "**How It Works:**";
       "";
       "- Normalizes the output of a layer by subtracting the batch mean and dividing by the batch standard deviation.";
       "- Applies learnable scaling ($\gamma$) and shifting ($\beta$) parameters to allow the model to undo normalization if needed.";
       "- Formula:";
       "  $$";
       "  \hat{x} = \frac{x - \mu_B}{\sqrt{\sigma_B^2 + \epsilon}}";
       "  $$";
       "  $$";
       "  y = \gamma \hat{x} + \beta";
       "  $$";
       "  where $\mu_B$ and $\sigma_B$ are the mean and variance of the batch, $\epsilon$ is a small constant to avoid division by zero, and $\gamma$, $\beta$ are learnable parameters.";
       "";
       "**When to Use:**";
       "";
       "- During the training of deep neural networks to mitigate the problem of internal covariate shift.";
       "- Commonly used in convolutional neural networks (CNNs) and recurrent neural networks (RNNs).";
       "";
       "**Why Use:**";
       "";
       "- **Stabilizes Learning:** Helps in stabilizing and accelerating the training process.";
       "- **Allows Higher Learning Rates:** Reduces the sensitivity to the initial weights.";
       "- **Regularizes the Model:** Provides slight regularization, reducing the need for dropout.";
       "";
       "**How to Use:**";
       "";
       "Typically used after the activation function in a layer, implemented in deep learning frameworks:";
       "";
       "```python";
       "import torch";
       "import torch.nn as nn";
       "";
       "# Example of using BatchNormalization in PyTorch";
       "class NeuralNetwork(nn.Module):";
       "    def __init__(self):";
       "        super(NeuralNetwork, self).__init__()";
       "        self.layer1 = nn.Linear(10, 50)";
       "        self.batch_norm1 = nn.BatchNorm1d(50)";
       "        self.relu = nn.ReLU()";
       "        self.layer2 = nn.Linear(50, 10)";
       "    ";
       "    def forward(self, x):";
       "        x = self.layer1(x)";
       "        x = self.batch_norm1(x)";
       "        x = self.relu(x)";
       "        x = self.layer2(x)";
       "        return x";
       "";
       "# Initialize and use the network";
       "model = NeuralNetwork()";
       "input_data = torch.randn(5, 10)";
       "output = model(input_data)";
       "```"
     ] |}.

Definition cell_layer_normalization : cell :=
  {| cell_type := Markdown;
     cell_id := "c3fe6be8-691e-4a38-9f0c-ecdc1ce2c09c";
     source := [
       "### Layer Normalization";
       "";
       "**Definition:**";
       "Layer normalization (LN) normalizes the inputs across the features for each individual data point rather than across the mini-batch. It is especially useful in recurrent neural networks and models where batch sizes are very small.";
       "";
       "**How It Works:**";
       "";
       "- Normalizes the inputs across the features dimension.";
       "- Formula:";
       "  $$";
       "  \hat{x} = \frac{x - \mu}{\sqrt{\sigma^2 + \epsilon}}";
       "  $$";
       "  $$";
       "  y = \gamma \hat{x} + \beta";
       "  $$";
       "  where $\mu$ and $\sigma$ are the mean and variance calculated across the features, $\epsilon$ is a small constant to avoid division by zero, and $\gamma$, $\beta$ are learnable parameters.";
       "";
       "**When to Use:**";
       "";
       "- Particularly useful in models with small batch sizes or RNNs where the dependence on sequential data can disrupt the utility of batch normalization.";
       "- Used in Transformer models and other architectures where the variance within the batch might not be representative.";
       "";
       "**Why Use:**";
       "";
       "- **Consistent Performance:** Provides more stable performance across different batch sizes.";
       "- **Improves Gradient Flow:** Helps in maintaining healthy gradient flows, especially in deeper networks and RNNs.";
       "- **Independent of Batch Size:** Unlike batch normalization, its performance is independent of the batch size.";
       "";
       "**How to Use:**";
       "";
       "Implemented in deep learning frameworks:";
       "";
       "```python";
       "import torch";
       "import torch.nn as nn";
       "";
       "# Example of using LayerNormalization in PyTorch";
       "class NeuralNetwork(nn.Module):";
       "    def __init__(self):";
       "        super(NeuralNetwork, self).__init__()";
       "        self.layer1 = nn.Linear(10, 50)";
       "        self.layer_norm1 = nn.LayerNorm(50)";
       "        self.relu = nn.ReLU()";
       "        self.layer2 = nn.Linear(50, 10)";
       "    ";
       "    def forward(self, x):";
       "        x = self.layer1(x)";
       "        x = self.layer_norm1(x)";
       "        x = self.relu(x)";
       "        x = self.layer2(x)";
       "        return x";
       "";
       "# Initialize and use the network";
       "model = NeuralNetwork()";
       "input_data = torch.randn(5, 10)";
       "output = model(input_data)";
       "```"
     ] |}.

Definition cell_comparison : cell :=
  {| cell_type := Markdown;
     cell_id := "63a1f15e-d2ac-435a-83d9-7783a7300f70";
     source := [
       "### Comparison and Use Cases";
       "";
       "- **Data Normalization:** Preprocessing step for normalizing input data, beneficial for traditional machine learning models and neural networks.";
       "- **Batch Normalization:** Applied during training of deep networks to stabilize learning, particularly in CNNs and large-batch scenarios.";
       "- **Layer Normalization:** Preferred in settings with small batch sizes, RNNs, or Transformer models to ensure stable activations and gradient flows.";
       "";
       "**Problem Solved:**";
       "";
       "- **Internal Covariate Shift:** Batch normalization addresses this by stabilizing the distribution of inputs to each layer.";
       "- **Gradient Flow:** Layer normalization helps maintain effective gradient flow in deep networks and sequences.";
       "";
       "By understanding when and why to use each normalization technique, you can significantly enhance the performance and stability of machine learning models."
     ] |}.

Definition cell_code : cell :=
  {| cell_type := Code;
     cell_id := "80828887-2ebb-4a3b-99cb-0303eec20b2e";
     source := [] |}.

(** The ["cells"] array of the notebook, in file order. *)
Definition cells : list cell :=
  [ cell_data_normalization;
    cell_batch_normalization;
    cell_layer_normalization;
    cell_comparison;
    cell_code ].

(** The source tree: every file of the repository with the cells it holds. *)
Definition source_tree : list (string * list cell) :=
  [ ("Normalization_Techniques/Normalization.ipynb", cells) ].

Definition is_code (c : cell) : bool :=
  match cell_type c with
  | Code => true
  | Markdown => false
  end.

Definition is_markdown (c : cell) : bool := negb (is_code c).

Definition has_source (c : cell) : bool :=
  match source c with
  | [] => false
  | _ :: _ => true
  end.

(** The cells a kernel would run. *)
Definition code_cells (cs : list cell) : list cell := filter is_code cs.

(** What a kernel would run: the source lines of the code cells, in order. *)
Definition executable_lines (cs : list cell) : list string :=
  flat_map source (code_cells cs).

(** A markdown line that opens a fenced Python fragment: text a reader sees,
    never handed to a kernel. *)
Definition opens_python_block (line : string) : bool :=
  String.eqb line "```python".

Definition python_blocks (c : cell) : nat :=
  List.length (filter opens_python_block (source c)).

(** The executable lines of a whole tree. *)
Definition tree_executable_lines (t : list (string * list cell)) : list string :=
  flat_map (fun f => executable_lines (snd f)) t.

End Notebook.

(** ** Guarded arithmetic on the reals *)

Module Guarded.

Local Open Scope R_scope.

(** A fraction [a / b] as the formulas write it: no value when [b] is zero. *)
Definition div (a b : R) : option R :=
  if Req_dec_T b 0 then None else Some (a / b).

(** Sequencing of computations that may have no value. *)
Definition bind {A B : Type} (m : option A) (k : A -> option B) : option B :=
  match m with
  | Some a => k a
  | None => None
  end.

(** Apply [f] to every element; no value as soon as one element has none. *)
Fixpoint traverse {A B : Type} (f : A -> option B) (l : list A) : option (list B) :=
  match l with
  | [] => Some []
  | x :: xs =>
      bind (f x) (fun y => bind (traverse f xs) (fun ys => Some (y :: ys)))
  end.

End Guarded.

Notation "x <- m ;; k" := (Guarded.bind m (fun x => k))
  (at level 61, m at next level, right associativity).

(** ** Traversals that know the position of each element *)

Module Indexed.

(** Apply [f n], [f (n + 1)], ... to the elements of a list, in order. *)
Fixpoint map_from {A B : Type} (f : nat -> A -> B) (n : nat) (l : list A) : list B :=
  match l with
  | [] => []
  | x :: xs => f n x :: map_from f (S n) xs
  end.

(** The same for an [f] that may have no value: no value as soon as one
    element has none. *)
Fixpoint traverse_from {A B : Type} (f : nat -> A -> option B) (n : nat) (l : list A)
  : option (list B) :=
  match l with
  | [] => Some []
  | x :: xs =>
      y <- f n x ;; ys <- traverse_from f (S n) xs ;; Some (y :: ys)
  end.

End Indexed.

(** ** Sample statistics *)

Module Stats.

Local Open Scope R_scope.

(** The sum of a finite sample. *)
Definition total (l : list R) : R := fold_right Rplus 0 l.

(** The number of values of a sample, as a real. *)
Definition count (l : list R) : R := INR (length l).

(** The mean: the sum over the number of values. *)
Definition mean (l : list R) : option R := Guarded.div (total l) (count l).

(** The squared deviations from [mu]. *)
Definition sq_dev (mu : R) (l : list R) : list R :=
  map (fun x => (x - mu) * (x - mu)) l.

(** The variance: the mean of the squared deviations from the mean. *)
Definition variance (l : list R) : option R :=
  mu <- mean l ;; Guarded.div (total (sq_dev mu l)) (count l).

(** The standard deviation: the square root of the variance. *)
Definition std (l : list R) : option R :=
  v <- variance l ;; Some (sqrt v).

(** The same two with the divisor [n - 1] (Bessel's correction), the other
    common reading of "sample standard deviation". *)
Definition variance_unbiased (l : list R) : option R :=
  mu <- mean l ;; Guarded.div (total (sq_dev mu l)) (count l - 1).

Definition std_unbiased (l : list R) : option R :=
  v <- variance_unbiased l ;; Some (sqrt v).

(** The least and the greatest value of a sample; none for an empty one. *)
Definition sample_min (l : list R) : option R :=
  match l with
  | [] => None
  | x :: xs => Some (fold_right Rmin x xs)
  end.

Definition sample_max (l : list R) : option R :=
  match l with
  | [] => None
  | x :: xs => Some (fold_right Rmax x xs)
  end.

End Stats.

(** ** Data normalization: min-max scaling

    [X' = (X - X_min) / (X_max - X_min)]. *)

Module MinMax.

Local Open Scope R_scope.

Definition scale (x_min x_max x : R) : option R :=
  Guarded.div (x - x_min) (x_max - x_min).

(** The formula applied to a whole sample, with the sample's own minimum and
    maximum. *)
Definition scale_sample (l : list R) : option (list R) :=
  x_min <- Stats.sample_min l ;;
  x_max <- Stats.sample_max l ;;
  Guarded.traverse (scale x_min x_max) l.

End MinMax.

(** ** Data normalization: z-score (standardization)

    [X' = (X - mu) / sigma]. *)

Module ZScore.

Local Open Scope R_scope.

Definition standardize (mu sigma x : R) : option R :=
  Guarded.div (x - mu) sigma.

(** The formula applied to a whole sample, with the sample's own mean and
    standard deviation. *)
Definition standardize_sample (l : list R) : option (list R) :=
  mu <- Stats.mean l ;;
  sigma <- Stats.std l ;;
  Guarded.traverse (standardize mu sigma) l.

End ZScore.

(** ** Batch normalization

    [x_hat = (x - mu_B) / sqrt (sigma_B^2 + epsilon)] and
    [y = gamma * x_hat + beta], where [mu_B] and [sigma_B^2] are the mean and
    the variance of the mini-batch.  A mini-batch is the list of the values one
    activation takes over the examples of the batch. *)

Module BatchNorm.

Local Open Scope R_scope.

Definition x_hat (mu_B var_B epsilon x : R) : option R :=
  Guarded.div (x - mu_B) (sqrt (var_B + epsilon)).

Definition y (gamma beta xh : R) : R := gamma * xh + beta.

(** The normalized values of a mini-batch. *)
Definition normalize (epsilon : R) (batch : list R) : option (list R) :=
  mu_B <- Stats.mean batch ;;
  var_B <- Stats.variance batch ;;
  Guarded.traverse (x_hat mu_B var_B epsilon) batch.

(** The output of the layer on a mini-batch. *)
Definition forward (epsilon gamma beta : R) (batch : list R) : option (list R) :=
  xs <- normalize epsilon batch ;;
  Some (map (y gamma beta) xs).

End BatchNorm.

(** ** Layer normalization

    The same two formulas, with [mu] and [sigma^2] the mean and the variance
    across the features of one example.  An example is the list of its
    features; a batch is a list of examples. *)

Module LayerNorm.

Local Open Scope R_scope.

Definition x_hat (mu var epsilon x : R) : option R :=
  Guarded.div (x - mu) (sqrt (var + epsilon)).

(** The second formula at one feature, with the gain and the bias of that
    feature. *)
Definition y (gamma beta xh : R) : R := gamma * xh + beta.

(** The normalized features of one example. *)
Definition normalize (epsilon : R) (features : list R) : option (list R) :=
  mu <- Stats.mean features ;;
  var <- Stats.variance features ;;
  Guarded.traverse (x_hat mu var epsilon) features.

(** The learnable parameters hold one gain and one bias per feature:
    [gamma j] and [beta j] for feature [j] (the [nn.LayerNorm(50)] of the
    notebook's fragment has 50 of each). *)
Definition scale_shift (gamma beta : nat -> R) (xs : list R) : list R :=
  Indexed.map_from (fun j xh => y (gamma j) (beta j) xh) 0 xs.

(** The output of the layer on one example. *)
Definition forward (epsilon : R) (gamma beta : nat -> R) (features : list R)
  : option (list R) :=
  xs <- normalize epsilon features ;;
  Some (scale_shift gamma beta xs).

End LayerNorm.

(** ** A normalization layer on the activations of a mini-batch

    The activations of a layer on a mini-batch are a list of examples, each
    the list of its features.  Batch normalization and layer normalization
    apply the same two formulas to every activation; they differ in the
    values the mean and the variance are taken over: "the mean and variance
    of the batch" (the values of that feature over the examples of the batch)
    or "the mean and variance calculated across the features" (the features
    of that example). *)

Module Layer.

Local Open Scope R_scope.

Inductive statistics : Type :=
| OverBatch
| OverFeatures.

(** The values of feature [j] over the examples that have one. *)
Definition column (j : nat) (acts : list (list R)) : list R :=
  flat_map (fun example =>
              match nth_error example j with
              | Some x => [x]
              | None => []
              end) acts.

(** The features of example [i]. *)
Definition row (i : nat) (acts : list (list R)) : list R := nth i acts [].

(** The values whose mean and variance normalize feature [j] of example [i]. *)
Definition pool (s : statistics) (acts : list (list R)) (i j : nat) : list R :=
  match s with
  | OverBatch => column j acts
  | OverFeatures => row i acts
  end.

Definition x_hat (s : statistics) : R -> R -> R -> R -> option R :=
  match s with
  | OverBatch => BatchNorm.x_hat
  | OverFeatures => LayerNorm.x_hat
  end.

Definition y (s : statistics) : R -> R -> R -> R :=
  match s with
  | OverBatch => BatchNorm.y
  | OverFeatures => LayerNorm.y
  end.

(** The output for feature [j], of value [x], of example [i]. *)
Definition entry (s : statistics) (epsilon : R) (gamma beta : nat -> R)
  (acts : list (list R)) (i j : nat) (x : R) : option R :=
  mu <- Stats.mean (pool s acts i j) ;;
  var <- Stats.variance (pool s acts i j) ;;
  xh <- x_hat s mu var epsilon x ;;
  Some (y s (gamma j) (beta j) xh).

(** The output of the layer on a mini-batch: one output per example, in
    order, each the list of its features' outputs. *)
Definition forward (s : statistics) (epsilon : R) (gamma beta : nat -> R)
  (acts : list (list R)) : list (option (list R)) :=
  Indexed.map_from
    (fun i example =>
       Indexed.traverse_from (fun j x => entry s epsilon gamma beta acts i j x) 0 example)
    0 acts.

Definition batch_norm := forward OverBatch.

Definition layer_norm := forward OverFeatures.

End Layer.

(** The values [map (fun x => (x - mu) / d)]: what each formula computes once
    its denominator [d] is known to be nonzero. *)
Definition rescaled (mu d : R) (l : list R) : list R :=
  map (fun x => ((x - mu) / d)%R) l.

(** A sample without two distinct values (the empty sample is one). *)
Definition all_equal (l : list R) : Prop :=
  forall x y, In x l -> In y l -> x = y.

(** * Properties *)

(** ** Guarded division and traversal *)

Section GuardedFacts.

Local Open Scope R_scope.

Lemma div_defined (a b : R) : b <> 0 -> Guarded.div a b = Some (a / b).
Proof.
  intros Hb. unfold Guarded.div.
  destruct (Req_dec_T b 0) as [E | _]; [contradiction | reflexivity].
Qed.

Lemma div_undefined (a : R) : Guarded.div a 0 = None.
Proof.
  unfold Guarded.div.
  destruct (Req_dec_T 0 0) as [_ | N]; [reflexivity | now elim N].
Qed.

Lemma div_value (a b q : R) :
  Guarded.div a b = Some q -> b <> 0 /\ q = a / b.
Proof.
  unfold Guarded.div.
  destruct (Req_dec_T b 0) as [_ | N]; [discriminate |].
  intros E. injection E as <-. now split.
Qed.

Lemma div_none (a b : R) : Guarded.div a b = None -> b = 0.
Proof.
  unfold Guarded.div.
  destruct (Req_dec_T b 0) as [E | _]; [trivial | discriminate].
Qed.

Lemma traverse_total {A B : Type} (f : A -> option B) (g : A -> B) (l : list A) :
  (forall x, In x l -> f x = Some (g x)) ->
  Guarded.traverse f l = Some (map g l).
Proof.
  induction l as [| x xs IH]; intros Hf; simpl.
  - reflexivity.
  - rewrite (Hf x (or_introl eq_refl)). simpl.
    rewrite IH by (intros z Hz; apply Hf; now right).
    reflexivity.
Qed.

Lemma traverse_stuck {A B : Type} (f : A -> option B) (x : A) (xs : list A) :
  f x = None -> Guarded.traverse f (x :: xs) = None.
Proof. intros E. simpl. now rewrite E. Qed.

End GuardedFacts.

(** ** Sums, means and variances *)

Section StatsFacts.

Local Open Scope R_scope.

Lemma count_cons (x : R) (l : list R) :
  Stats.count (x :: l) = Stats.count l + 1.
Proof. unfold Stats.count. simpl length. now rewrite S_INR. Qed.

Lemma count_nonneg (l : list R) : 0 <= Stats.count l.
Proof. apply pos_INR. Qed.

Lemma count_pos (l : list R) : l <> [] -> 0 < Stats.count l.
Proof.
  destruct l as [| x xs]; [congruence | intros _].
  rewrite count_cons. pose proof (count_nonneg xs). lra.
Qed.

Lemma count_map (f : R -> R) (l : list R) :
  Stats.count (map f l) = Stats.count l.
Proof. unfold Stats.count. now rewrite length_map. Qed.

Lemma mean_defined (l : list R) :
  l <> [] -> Stats.mean l = Some (Stats.total l / Stats.count l).
Proof.
  intros Hl. apply div_defined.
  pose proof (count_pos l Hl). lra.
Qed.

Lemma mean_empty : Stats.mean [] = None.
Proof. apply div_undefined. Qed.

Lemma mean_nonempty (l : list R) (mu : R) : Stats.mean l = Some mu -> l <> [].
Proof. intros E ->. rewrite mean_empty in E. discriminate. Qed.

(** The defining equation of the mean, without a fraction. *)
Lemma mean_total (l : list R) (mu : R) :
  Stats.mean l = Some mu -> Stats.total l = mu * Stats.count l.
Proof.
  intros E. apply div_value in E as [Hc ->]. now field.
Qed.

Lemma total_sq_dev_nonneg (mu : R) (l : list R) :
  0 <= Stats.total (Stats.sq_dev mu l).
Proof.
  induction l as [| x xs IH]; simpl.
  - lra.
  - pose proof (Rle_0_sqr (x - mu)) as Hs. unfold Rsqr in Hs. lra.
Qed.

Lemma variance_defined (l : list R) :
  l <> [] ->
  Stats.variance l =
    Some (Stats.total (Stats.sq_dev (Stats.total l / Stats.count l) l) / Stats.count l).
Proof.
  intros Hl. unfold Stats.variance. rewrite (mean_defined l Hl). simpl.
  apply div_defined. pose proof (count_pos l Hl). lra.
Qed.

Lemma variance_empty : Stats.variance [] = None.
Proof. unfold Stats.variance. now rewrite mean_empty. Qed.

Lemma variance_value (l : list R) (mu v : R) :
  Stats.mean l = Some mu -> Stats.variance l = Some v ->
  v = Stats.total (Stats.sq_dev mu l) / Stats.count l.
Proof.
  intros Em Ev. unfold Stats.variance in Ev. rewrite Em in Ev. simpl in Ev.
  now apply div_value in Ev as [_ ->].
Qed.

Lemma variance_nonneg (l : list R) (v : R) :
  Stats.variance l = Some v -> 0 <= v.
Proof.
  intros Ev. unfold Stats.variance in Ev.
  destruct (Stats.mean l) as [mu |] eqn:Em; [| discriminate].
  simpl in Ev. apply div_value in Ev as [Hc ->].
  pose proof (total_sq_dev_nonneg mu l) as Ht.
  pose proof (count_nonneg l) as Hn.
  apply Rmult_le_pos; [assumption |].
  apply Rlt_le, Rinv_0_lt_compat. lra.
Qed.

(** A sample of equal values has its value as mean and variance zero. *)
Lemma total_repeat (c : R) (n : nat) :
  Stats.total (repeat c n) = c * INR n.
Proof.
  induction n as [| n IH].
  - simpl. lra.
  - change (repeat c (S n)) with (c :: repeat c n).
    rewrite S_INR. simpl. rewrite IH. lra.
Qed.

Lemma total_sq_dev_repeat (c : R) (n : nat) :
  Stats.total (Stats.sq_dev c (repeat c n)) = 0.
Proof.
  induction n as [| n IH].
  - reflexivity.
  - change (Stats.total (Stats.sq_dev c (repeat c (S n))))
      with ((c - c) * (c - c) + Stats.total (Stats.sq_dev c (repeat c n))).
    rewrite IH. lra.
Qed.

Lemma mean_constant (c : R) (n : nat) :
  Stats.mean (repeat c (S n)) = Some c.
Proof.
  rewrite mean_defined by discriminate.
  f_equal. rewrite total_repeat. unfold Stats.count. rewrite repeat_length.
  field. pose proof (pos_INR n). rewrite S_INR. lra.
Qed.

Lemma variance_constant (c : R) (n : nat) :
  Stats.variance (repeat c (S n)) = Some 0.
Proof.
  unfold Stats.variance. rewrite mean_constant. simpl Guarded.bind.
  rewrite total_sq_dev_repeat.
  rewrite div_defined.
  - f_equal. unfold Rdiv. ring.
  - apply Rgt_not_eq, Rlt_gt, count_pos. discriminate.
Qed.

(** Bounds by the least and the greatest value. *)
Lemma fold_min_le (x0 : R) (xs : list R) (x : R) :
  x = x0 \/ In x xs -> fold_right Rmin x0 xs <= x.
Proof.
  induction xs as [| z zs IH]; simpl.
  - intros [-> | []]. lra.
  - intros [E | [E | Hin]].
    + eapply Rle_trans; [apply Rmin_r | apply IH; now left].
    + subst z. apply Rmin_l.
    + eapply Rle_trans; [apply Rmin_r | apply IH; now right].
Qed.

Lemma fold_max_ge (x0 : R) (xs : list R) (x : R) :
  x = x0 \/ In x xs -> x <= fold_right Rmax x0 xs.
Proof.
  induction xs as [| z zs IH]; simpl.
  - intros [-> | []]. lra.
  - intros [E | [E | Hin]].
    + eapply Rle_trans; [apply IH; now left | apply Rmax_r].
    + subst z. apply Rmax_l.
    + eapply Rle_trans; [apply IH; now right | apply Rmax_r].
Qed.

Lemma sample_min_le (l : list R) (lo x : R) :
  Stats.sample_min l = Some lo -> In x l -> lo <= x.
Proof.
  destruct l as [| x0 xs]; simpl; [discriminate |].
  intros E Hin. injection E as <-. apply fold_min_le.
  destruct Hin as [-> | H]; [now left | now right].
Qed.

Lemma sample_max_ge (l : list R) (hi x : R) :
  Stats.sample_max l = Some hi -> In x l -> x <= hi.
Proof.
  destruct l as [| x0 xs]; simpl; [discriminate |].
  intros E Hin. injection E as <-. apply fold_max_ge.
  destruct Hin as [-> | H]; [now left | now right].
Qed.

(** The least and the greatest value are values of the sample. *)
Lemma fold_min_in (x0 : R) (xs : list R) : In (fold_right Rmin x0 xs) (x0 :: xs).
Proof.
  induction xs as [| z zs IH].
  - now left.
  - change (fold_right Rmin x0 (z :: zs)) with (Rmin z (fold_right Rmin x0 zs)).
    apply Rmin_case.
    + right. now left.
    + destruct IH as [E | Hin]; [now left | right; now right].
Qed.

Lemma fold_max_in (x0 : R) (xs : list R) : In (fold_right Rmax x0 xs) (x0 :: xs).
Proof.
  induction xs as [| z zs IH].
  - now left.
  - change (fold_right Rmax x0 (z :: zs)) with (Rmax z (fold_right Rmax x0 zs)).
    apply Rmax_case.
    + right. now left.
    + destruct IH as [E | Hin]; [now left | right; now right].
Qed.

Lemma sample_min_in (l : list R) (lo : R) :
  Stats.sample_min l = Some lo -> In lo l.
Proof.
  destruct l as [| x0 xs]; simpl; [discriminate |].
  intros E. injection E as <-. apply fold_min_in.
Qed.

Lemma sample_max_in (l : list R) (hi : R) :
  Stats.sample_max l = Some hi -> In hi l.
Proof.
  destruct l as [| x0 xs]; simpl; [discriminate |].
  intros E. injection E as <-. apply fold_max_in.
Qed.

End StatsFacts.

(** ** Centring and rescaling a sample *)

Section RescaleFacts.

Local Open Scope R_scope.

Variables mu d : R.

Lemma rescaled_length (l : list R) : length (rescaled mu d l) = length l.
Proof. apply length_map. Qed.

Lemma rescaled_count (l : list R) : Stats.count (rescaled mu d l) = Stats.count l.
Proof. apply count_map. Qed.

Lemma total_rescaled (l : list R) :
  Stats.total (rescaled mu d l) = (Stats.total l - mu * Stats.count l) / d.
Proof.
  induction l as [| x xs IH].
  - simpl. unfold Stats.count. simpl. unfold Rdiv. ring.
  - rewrite count_cons.
    change (Stats.total (rescaled mu d (x :: xs)))
      with ((x - mu) / d + Stats.total (rescaled mu d xs)).
    rewrite IH. simpl. unfold Rdiv. ring.
Qed.

Lemma total_sq_dev_rescaled (l : list R) :
  d <> 0 ->
  Stats.total (Stats.sq_dev 0 (rescaled mu d l))
  = Stats.total (Stats.sq_dev mu l) / (d * d).
Proof.
  intros Hd. induction l as [| x xs IH].
  - simpl. unfold Rdiv. ring.
  - change (Stats.total (Stats.sq_dev 0 (rescaled mu d (x :: xs))))
      with (((x - mu) / d - 0) * ((x - mu) / d - 0)
            + Stats.total (Stats.sq_dev 0 (rescaled mu d xs))).
    rewrite IH. simpl. now field.
Qed.

(** The rescaled sample has mean zero, whatever the divisor. *)
Lemma mean_rescaled (l : list R) :
  Stats.mean l = Some mu -> Stats.mean (rescaled mu d l) = Some 0.
Proof.
  intros Em. pose proof (mean_nonempty l mu Em) as Hl.
  unfold Stats.mean. rewrite rescaled_count, total_rescaled.
  rewrite (mean_total l mu Em).
  rewrite div_defined.
  - f_equal. unfold Rdiv. ring.
  - apply Rgt_not_eq, Rlt_gt, count_pos, Hl.
Qed.

(** Its variance is the variance of the sample over the square of the divisor. *)
Lemma variance_rescaled (l : list R) (v : R) :
  Stats.mean l = Some mu -> Stats.variance l = Some v -> d <> 0 ->
  Stats.variance (rescaled mu d l) = Some (v / (d * d)).
Proof.
  intros Em Ev Hd. pose proof (mean_nonempty l mu Em) as Hl.
  pose proof (count_pos l Hl) as Hc.
  unfold Stats.variance. rewrite (mean_rescaled l Em). simpl Guarded.bind.
  rewrite rescaled_count, (total_sq_dev_rescaled l Hd).
  rewrite (variance_value l mu v Em Ev).
  rewrite div_defined by lra.
  f_equal. field. split; lra.
Qed.

Lemma traverse_rescaled (l : list R) :
  d <> 0 ->
  Guarded.traverse (fun x => Guarded.div (x - mu) d) l = Some (rescaled mu d l).
Proof.
  intros Hd. apply traverse_total. intros x _. now apply div_defined.
Qed.

End RescaleFacts.

Section FormulaFacts.

Local Open Scope R_scope.

(** The denominator of the batch- and layer-normalization formulas. *)
Lemma sqrt_shift_pos (v epsilon : R) :
  0 <= v -> 0 < epsilon -> 0 < sqrt (v + epsilon).
Proof. intros Hv He. apply sqrt_lt_R0. lra. Qed.

Lemma sqrt_shift_sqr (v epsilon : R) :
  0 <= v -> 0 < epsilon ->
  sqrt (v + epsilon) * sqrt (v + epsilon) = v + epsilon.
Proof. intros Hv He. apply sqrt_sqrt. lra. Qed.

(** Min-max scaling has a value exactly when the two bounds differ. *)
Lemma scale_defined (lo hi x : R) :
  hi <> lo -> MinMax.scale lo hi x = Some ((x - lo) / (hi - lo)).
Proof. intros H. apply div_defined. lra. Qed.

Lemma scale_undefined (m x : R) : MinMax.scale m m x = None.
Proof.
  unfold MinMax.scale. replace (m - m) with 0 by ring. apply div_undefined.
Qed.

(** Min-max scaling is increasing, strictly, when [lo < hi]. *)
Lemma scale_monotone (lo hi a b : R) :
  lo < hi -> a <= b -> (a - lo) / (hi - lo) <= (b - lo) / (hi - lo).
Proof.
  intros Hlh Hab. unfold Rdiv.
  apply Rmult_le_compat_r; [| lra].
  apply Rlt_le, Rinv_0_lt_compat. lra.
Qed.

Lemma scale_strictly_monotone (lo hi a b : R) :
  lo < hi -> a < b -> (a - lo) / (hi - lo) < (b - lo) / (hi - lo).
Proof.
  intros Hlh Hab. unfold Rdiv.
  apply Rmult_lt_compat_r; [| lra].
  apply Rinv_0_lt_compat. lra.
Qed.

Lemma scale_range (lo hi x : R) :
  lo < hi -> lo <= x <= hi -> 0 <= (x - lo) / (hi - lo) <= 1.
Proof.
  intros Hlh [Hl Hh].
  pose proof (scale_monotone lo hi lo x Hlh Hl) as H0.
  pose proof (scale_monotone lo hi x hi Hlh Hh) as H1.
  replace ((lo - lo) / (hi - lo)) with 0 in H0 by (field; lra).
  replace ((hi - lo) / (hi - lo)) with 1 in H1 by (field; lra).
  now split.
Qed.

(** The normalized mini-batch, once its mean and variance are known. *)
Lemma batch_normalize_defined (epsilon : R) (l : list R) :
  l <> [] -> 0 < epsilon ->
  exists mu v,
    Stats.mean l = Some mu /\ Stats.variance l = Some v /\ 0 <= v /\
    BatchNorm.normalize epsilon l = Some (rescaled mu (sqrt (v + epsilon)) l).
Proof.
  intros Hl He.
  pose proof (mean_defined l Hl) as Em.
  pose proof (variance_defined l Hl) as Ev.
  pose proof (variance_nonneg l _ Ev) as Hv.
  eexists; eexists. repeat split; [exact Em | exact Ev | exact Hv |].
  unfold BatchNorm.normalize. rewrite Em, Ev. simpl Guarded.bind.
  apply traverse_rescaled.
  apply Rgt_not_eq, Rlt_gt, sqrt_shift_pos; assumption.
Qed.

Lemma layer_normalize_defined (epsilon : R) (l : list R) :
  l <> [] -> 0 < epsilon ->
  exists mu v,
    Stats.mean l = Some mu /\ Stats.variance l = Some v /\ 0 <= v /\
    LayerNorm.normalize epsilon l = Some (rescaled mu (sqrt (v + epsilon)) l).
Proof.
  intros Hl He.
  pose proof (mean_defined l Hl) as Em.
  pose proof (variance_defined l Hl) as Ev.
  pose proof (variance_nonneg l _ Ev) as Hv.
  eexists; eexists. repeat split; [exact Em | exact Ev | exact Hv |].
  unfold LayerNorm.normalize. rewrite Em, Ev. simpl Guarded.bind.
  apply traverse_rescaled.
  apply Rgt_not_eq, Rlt_gt, sqrt_shift_pos; assumption.
Qed.

(** The variance of a normalized mini-batch. *)
Lemma batch_normalize_variance (epsilon : R) (l : list R) (mu v : R) :
  Stats.mean l = Some mu -> Stats.variance l = Some v -> 0 < epsilon ->
  Stats.variance (rescaled mu (sqrt (v + epsilon)) l) = Some (v / (v + epsilon)).
Proof.
  intros Em Ev He. pose proof (variance_nonneg l v Ev) as Hv.
  rewrite (variance_rescaled mu (sqrt (v + epsilon)) l v Em Ev).
  - now rewrite sqrt_shift_sqr.
  - apply Rgt_not_eq, Rlt_gt, sqrt_shift_pos; assumption.
Qed.

End FormulaFacts.

(** ** Min-max scaling *)

Section MinMaxFacts.

Local Open Scope R_scope.

(** Evaluate [Rmin] and [Rmax] on numerals. *)
Ltac eval_min_max :=
  unfold Rmin, Rmax; repeat (destruct (Rle_dec _ _)); try lra.

(** On a sample whose bounds differ, the sample-level formula rescales every
    value. *)
Lemma scale_sample_defined (l : list R) (x_min x_max : R) :
  Stats.sample_min l = Some x_min -> Stats.sample_max l = Some x_max ->
  x_max <> x_min ->
  MinMax.scale_sample l = Some (rescaled x_min (x_max - x_min) l).
Proof.
  intros Emin Emax Hne. unfold MinMax.scale_sample.
  rewrite Emin, Emax. simpl Guarded.bind.
  apply traverse_rescaled. lra.
Qed.

(** On a sample whose bounds coincide, it has no value. *)
Lemma scale_sample_undefined (l : list R) (m : R) :
  Stats.sample_min l = Some m -> Stats.sample_max l = Some m ->
  MinMax.scale_sample l = None.
Proof.
  intros Emin Emax. unfold MinMax.scale_sample.
  rewrite Emin, Emax. simpl Guarded.bind.
  destruct l as [| x xs]; [discriminate |].
  apply traverse_stuck, scale_undefined.
Qed.

(** C1: on a sample whose minimum is strictly below its maximum, the min-max
    formula sends every value between the two bounds into [0, 1], the minimum
    to 0 and the maximum to 1; the rescaled sample has as many values as the
    sample, all of them in [0, 1], with 0 and 1 among them. *)
Theorem min_max_scale_unit_interval (l : list R) (x_min x_max : R) :
  Stats.sample_min l = Some x_min ->
  Stats.sample_max l = Some x_max ->
  x_min < x_max ->
  (forall X, x_min <= X <= x_max ->
     exists X', MinMax.scale x_min x_max X = Some X' /\ 0 <= X' <= 1) /\
  MinMax.scale x_min x_max x_min = Some 0 /\
  MinMax.scale x_min x_max x_max = Some 1 /\
  exists l',
    MinMax.scale_sample l = Some l' /\
    length l' = length l /\
    Forall (fun X' => 0 <= X' <= 1) l' /\
    In 0 l' /\ In 1 l'.
Proof.
  intros Emin Emax Hlt.
  assert (x_max <> x_min) as Hne by lra.
  assert ((x_min - x_min) / (x_max - x_min) = 0) as E0 by (field; lra).
  assert ((x_max - x_min) / (x_max - x_min) = 1) as E1 by (field; lra).
  split; [| split; [| split]].
  - intros X HX. eexists. split.
    + now apply scale_defined.
    + now apply scale_range.
  - rewrite scale_defined by assumption. now rewrite E0.
  - rewrite scale_defined by assumption. now rewrite E1.
  - exists (rescaled x_min (x_max - x_min) l).
    split; [now apply scale_sample_defined |].
    split; [apply rescaled_length |].
    split; [| split].
    + apply Forall_forall. intros X' HX'.
      apply in_map_iff in HX' as [X [<- HX]].
      apply scale_range; [assumption |]. split.
      * now apply (sample_min_le l).
      * now apply (sample_max_ge l).
    + rewrite <- E0.
      apply (in_map (fun x => (x - x_min) / (x_max - x_min))).
      now apply sample_min_in.
    + rewrite <- E1.
      apply (in_map (fun x => (x - x_min) / (x_max - x_min))).
      now apply sample_max_in.
Qed.

Lemma min_max_scale_unit_interval_witness :
  Stats.sample_min [2; 1; 3] = Some 1 /\
  Stats.sample_max [2; 1; 3] = Some 3 /\
  1 < 3 /\
  MinMax.scale 1 3 1 = Some 0 /\
  MinMax.scale 1 3 3 = Some 1 /\
  exists l',
    MinMax.scale_sample [2; 1; 3] = Some l' /\
    length l' = 3%nat /\
    Forall (fun X' => 0 <= X' <= 1) l'.
Proof.
  assert (Stats.sample_min [2; 1; 3] = Some 1) as Emin
    by (simpl; f_equal; eval_min_max).
  assert (Stats.sample_max [2; 1; 3] = Some 3) as Emax
    by (simpl; f_equal; eval_min_max).
  assert (1 < 3) as Hlt by lra.
  destruct (min_max_scale_unit_interval [2; 1; 3] 1 3 Emin Emax Hlt)
    as (_ & H0 & H1 & l' & Hs & Hlen & Hall & _).
  repeat split; try assumption.
  exists l'. repeat split; assumption.
Defined.

(** C6: on a sample whose minimum is strictly below its maximum, the min-max
    formula is an affine map [X |-> a * X + b] with positive slope, and on the
    values between the two bounds it keeps the order, strictly. *)
Theorem min_max_scale_affine_monotone (l : list R) (x_min x_max : R) :
  Stats.sample_min l = Some x_min ->
  Stats.sample_max l = Some x_max ->
  x_min < x_max ->
  (exists a b, 0 < a /\ forall X, MinMax.scale x_min x_max X = Some (a * X + b)) /\
  (forall X Y, x_min <= X <= x_max -> x_min <= Y <= x_max ->
     exists X' Y',
       MinMax.scale x_min x_max X = Some X' /\
       MinMax.scale x_min x_max Y = Some Y' /\
       (X <= Y -> X' <= Y') /\ (X < Y -> X' < Y')).
Proof.
  intros _ _ Hlt. assert (x_max <> x_min) as Hne by lra. split.
  - exists (/ (x_max - x_min)), (- x_min / (x_max - x_min)). split.
    + apply Rinv_0_lt_compat. lra.
    + intros X. rewrite scale_defined by assumption.
      f_equal. unfold Rdiv. ring.
  - intros X Y _ _.
    exists ((X - x_min) / (x_max - x_min)), ((Y - x_min) / (x_max - x_min)).
    repeat split.
    + now apply scale_defined.
    + now apply scale_defined.
    + now apply scale_monotone.
    + now apply scale_strictly_monotone.
Qed.

Lemma min_max_scale_affine_monotone_witness :
  Stats.sample_min [2; 1; 3] = Some 1 /\
  Stats.sample_max [2; 1; 3] = Some 3 /\
  1 < 3 /\
  (exists a b, 0 < a /\ forall X, MinMax.scale 1 3 X = Some (a * X + b)) /\
  (exists X' Y',
     MinMax.scale 1 3 1 = Some X' /\ MinMax.scale 1 3 2 = Some Y' /\ X' < Y').
Proof.
  assert (Stats.sample_min [2; 1; 3] = Some 1) as Emin
    by (simpl; f_equal; eval_min_max).
  assert (Stats.sample_max [2; 1; 3] = Some 3) as Emax
    by (simpl; f_equal; eval_min_max).
  assert (1 < 3) as Hlt by lra.
  destruct (min_max_scale_affine_monotone [2; 1; 3] 1 3 Emin Emax Hlt)
    as [Haff Hmono].
  repeat split; try assumption.
  destruct (Hmono 1 2) as (X' & Y' & EX & EY & _ & Hs); [lra | lra |].
  exists X', Y'. repeat split; try assumption. apply Hs. lra.
Defined.

(** C8: the min-max formula is partial.  On a sample whose maximum equals its
    minimum the denominator is zero and the formula has no value, for any
    input and for the sample as a whole; on a sample whose maximum differs
    from its minimum it has a value for every input and for the sample as a
    whole. *)
Theorem min_max_scale_partial (l : list R) (x_min x_max : R) :
  Stats.sample_min l = Some x_min ->
  Stats.sample_max l = Some x_max ->
  (x_max = x_min ->
     x_max - x_min = 0 /\
     (forall X, MinMax.scale x_min x_max X = None) /\
     MinMax.scale_sample l = None) /\
  (x_max <> x_min ->
     (forall X, exists X', MinMax.scale x_min x_max X = Some X') /\
     (exists l', MinMax.scale_sample l = Some l')).
Proof.
  intros Emin Emax. split.
  - intros ->. split; [ring |]. split.
    + intros X. apply scale_undefined.
    + now apply scale_sample_undefined with (m := x_min).
  - intros Hne. split.
    + intros X. eexists. now apply scale_defined.
    + exists (rescaled x_min (x_max - x_min) l). now apply scale_sample_defined.
Qed.

Lemma min_max_scale_partial_witness :
  Stats.sample_min [5; 5] = Some 5 /\
  Stats.sample_max [5; 5] = Some 5 /\
  (forall X, MinMax.scale 5 5 X = None) /\
  MinMax.scale_sample [5; 5] = None.
Proof.
  assert (Stats.sample_min [5; 5] = Some 5) as Emin
    by (simpl; f_equal; eval_min_max).
  assert (Stats.sample_max [5; 5] = Some 5) as Emax
    by (simpl; f_equal; eval_min_max).
  destruct (min_max_scale_partial [5; 5] 5 5 Emin Emax) as [Hconst _].
  destruct (Hconst eq_refl) as (_ & Hall & Hsample).
  repeat split; assumption.
Defined.

(** The other branch, on a sample whose bounds differ. *)
Example min_max_scale_defined_example :
  MinMax.scale_sample [2; 1; 3] = Some [1 / 2; 0; 1].
Proof.
  rewrite (scale_sample_defined [2; 1; 3] 1 3).
  - unfold rescaled. simpl. repeat f_equal; field.
  - simpl; f_equal; eval_min_max.
  - simpl; f_equal; eval_min_max.
  - lra.
Qed.

(** The formula has no value only through a zero denominator. *)
Lemma scale_none_iff (x_min x_max X : R) :
  MinMax.scale x_min x_max X = None <-> x_max = x_min.
Proof.
  split.
  - intros E. apply div_none in E. lra.
  - intros ->. apply scale_undefined.
Qed.

End MinMaxFacts.

(** ** The notebook's cells *)

Section NotebookFacts.

(** C7: every cell of the notebook with a non-empty source is a markdown
    cell; the notebook has exactly one code cell and its source is empty; so
    nothing in the notebook, and nothing in the source tree, is executable. *)
Theorem notebook_no_executable_logic :
  Forall (fun c => Notebook.source c <> [] ->
                   Notebook.cell_type c = Notebook.Markdown) Notebook.cells /\
  (exists c, Notebook.code_cells Notebook.cells = [c] /\ Notebook.source c = []) /\
  Notebook.executable_lines Notebook.cells = [] /\
  Notebook.tree_executable_lines Notebook.source_tree = [].
Proof.
  split; [| split; [| split]].
  - apply Forall_forall. intros c Hin. unfold Notebook.cells in Hin.
    simpl in Hin.
    destruct Hin as [<- | [<- | [<- | [<- | [<- | []]]]]];
      intros Hsrc; try reflexivity.
    now elim Hsrc.
  - exists Notebook.cell_code. split; reflexivity.
  - reflexivity.
  - reflexivity.
Qed.

(** The four markdown cells are the ones that carry text. *)
Lemma notebook_markdown_cells :
  filter Notebook.has_source Notebook.cells
  = filter Notebook.is_markdown Notebook.cells
  /\ length (filter Notebook.is_markdown Notebook.cells) = 4%nat.
Proof. split; reflexivity. Qed.

(** The Python fragments of the notebook are fenced text inside the first
    three markdown cells; the code cell holds none. *)
Lemma notebook_python_fragments :
  map Notebook.python_blocks Notebook.cells = [1; 1; 1; 0; 0]%nat /\
  Forall (fun c => Notebook.python_blocks c <> 0%nat ->
                   Notebook.is_code c = false) Notebook.cells.
Proof.
  split; [reflexivity |].
  apply Forall_forall. intros c Hin. unfold Notebook.cells in Hin.
  simpl in Hin.
  destruct Hin as [<- | [<- | [<- | [<- | [<- | []]]]]];
    intros Hn; try reflexivity; now elim Hn.
Qed.

End NotebookFacts.

(** ** Layer normalization *)

Section LayerNormFacts.

Local Open Scope R_scope.

Lemma map_from_length {A B : Type} (f : nat -> A -> B) (n : nat) (l : list A) :
  length (Indexed.map_from f n l) = length l.
Proof.
  revert n. induction l as [| x xs IH]; intros n; simpl; [reflexivity |].
  now rewrite IH.
Qed.

Lemma map_from_nth_error {A B : Type} (f : nat -> A -> B) (n i : nat)
  (l : list A) (x : A) :
  nth_error l i = Some x ->
  nth_error (Indexed.map_from f n l) i = Some (f (n + i)%nat x).
Proof.
  revert n i. induction l as [| z zs IH]; intros n i H.
  - destruct i; discriminate.
  - destruct i as [| i]; simpl in *.
    + injection H as ->. now rewrite Nat.add_0_r.
    + rewrite (IH (S n) i H). f_equal. f_equal. lia.
Qed.

Lemma traverse_from_ext {A B : Type} (f g : nat -> A -> option B) (n : nat)
  (l : list A) :
  (forall j x, f j x = g j x) ->
  Indexed.traverse_from f n l = Indexed.traverse_from g n l.
Proof.
  intros H. revert n. induction l as [| x xs IH]; intros n; simpl.
  - reflexivity.
  - now rewrite H, IH.
Qed.

(** A positional traversal that first computes and then post-processes each
    element is the plain traversal followed by the positional map. *)
Lemma traverse_from_split {A B C : Type} (f : A -> option B) (g : nat -> B -> C)
  (n : nat) (l : list A) :
  Indexed.traverse_from (fun j x => xh <- f x ;; Some (g j xh)) n l
  = (xs <- Guarded.traverse f l ;; Some (Indexed.map_from g n xs)).
Proof.
  revert n. induction l as [| x xs IH]; intros n; simpl.
  - reflexivity.
  - destruct (f x) as [xh |]; simpl; [| reflexivity].
    rewrite IH. destruct (Guarded.traverse f xs); reflexivity.
Qed.

(** With the statistics taken over the features, the pool of an activation
    is its own example. *)
Lemma pool_over_features (acts : list (list R)) (i j : nat) (x : list R) :
  nth_error acts i = Some x -> Layer.pool Layer.OverFeatures acts i j = x.
Proof. intros H. simpl. unfold Layer.row. now apply nth_error_nth. Qed.

(** The output of the layer for an example, computed from the example alone. *)
Lemma layer_norm_example
  (epsilon : R) (gamma beta : nat -> R) (acts : list (list R)) (i : nat)
  (x : list R) :
  nth_error acts i = Some x ->
  nth_error (Layer.layer_norm epsilon gamma beta acts) i
  = Some (Indexed.traverse_from
            (fun j v => Layer.entry Layer.OverFeatures epsilon gamma beta [x] 0 j v)
            0 x).
Proof.
  intros H. unfold Layer.layer_norm, Layer.forward.
  rewrite (map_from_nth_error _ 0 i acts x H). cbn [Nat.add]. f_equal.
  apply traverse_from_ext. intros j v. unfold Layer.entry.
  now rewrite (pool_over_features acts i j x H).
Qed.

(** On an example with at least one feature, it is the two formulas applied
    to the example: [LayerNorm.forward]. *)
Lemma layer_norm_example_forward
  (epsilon : R) (gamma beta : nat -> R) (acts : list (list R)) (i : nat)
  (x : list R) :
  nth_error acts i = Some x -> x <> [] ->
  nth_error (Layer.layer_norm epsilon gamma beta acts) i
  = Some (LayerNorm.forward epsilon gamma beta x).
Proof.
  intros H Hx. rewrite (layer_norm_example epsilon gamma beta acts i x H).
  f_equal. unfold Layer.entry, LayerNorm.forward, LayerNorm.normalize.
  simpl Layer.pool. unfold Layer.row. simpl nth.
  simpl Layer.x_hat. simpl Layer.y.
  rewrite (mean_defined x Hx), (variance_defined x Hx).
  cbv beta iota delta [Guarded.bind].
  exact (traverse_from_split (LayerNorm.x_hat _ _ epsilon)
           (fun j xh => LayerNorm.y (gamma j) (beta j) xh) 0 x).
Qed.

(** C5: the layer-normalization output for an example does not depend on the
    batch it is in.  Whenever two batches, of any sizes, hold the same example
    [x] (at positions [i] and [j]), the layer, which is given the whole batch,
    returns the same output at these positions: the output it returns for [x]
    as a batch of one, and, when [x] has a feature, the two formulas applied
    to [x] with the mean and the variance of its own features. *)
Theorem layer_norm_batch_independent
  (epsilon : R) (gamma beta : nat -> R) (x : list R) (B1 B2 : list (list R))
  (i j : nat) :
  nth_error B1 i = Some x ->
  nth_error B2 j = Some x ->
  nth_error (Layer.layer_norm epsilon gamma beta B1) i
  = nth_error (Layer.layer_norm epsilon gamma beta B2) j
  /\ nth_error (Layer.layer_norm epsilon gamma beta B1) i
     = nth_error (Layer.layer_norm epsilon gamma beta [x]) 0
  /\ (x <> [] ->
      nth_error (Layer.layer_norm epsilon gamma beta B1) i
      = Some (LayerNorm.forward epsilon gamma beta x)).
Proof.
  intros H1 H2.
  rewrite (layer_norm_example epsilon gamma beta B1 i x H1).
  rewrite (layer_norm_example epsilon gamma beta B2 j x H2).
  rewrite (layer_norm_example epsilon gamma beta [x] 0 x eq_refl).
  split; [reflexivity |]. split; [reflexivity |].
  intros Hx.
  rewrite <- (layer_norm_example epsilon gamma beta B1 i x H1).
  now apply layer_norm_example_forward.
Qed.

Lemma layer_norm_batch_independent_witness :
  nth_error [[1; 3]] 0 = Some [1; 3] /\
  nth_error [[0; 0]; [1; 3]; [7]] 1 = Some [1; 3] /\
  nth_error (Layer.layer_norm 1 (fun _ => 2) (fun _ => 5) [[1; 3]]) 0
  = nth_error
      (Layer.layer_norm 1 (fun _ => 2) (fun _ => 5) [[0; 0]; [1; 3]; [7]]) 1.
Proof.
  split; [reflexivity |]. split; [reflexivity |].
  apply (layer_norm_batch_independent 1 (fun _ => 2) (fun _ => 5)
           [1; 3] [[1; 3]] [[0; 0]; [1; 3]; [7]] 0 1);
    reflexivity.
Defined.

End LayerNormFacts.

(** ** Batch normalization *)

Section BatchNormFacts.

Local Open Scope R_scope.

(** The statistics of the mini-batch [0; 2] and of a one-value mini-batch. *)
Lemma mean_0_2 : Stats.mean [0; 2] = Some 1.
Proof.
  rewrite mean_defined by discriminate.
  f_equal. unfold Stats.count. simpl. field.
Qed.

Lemma variance_0_2 : Stats.variance [0; 2] = Some 1.
Proof.
  unfold Stats.variance. rewrite mean_0_2. simpl Guarded.bind.
  unfold Stats.count. simpl. rewrite div_defined by lra.
  f_equal. field.
Qed.

Lemma sqrt_4 : sqrt (1 + 3) = 2.
Proof.
  replace (1 + 3) with (2 * 2) by ring. apply sqrt_square. lra.
Qed.

Lemma batch_normalize_0_2 :
  BatchNorm.normalize 3 [0; 2] = Some [- (1 / 2); 1 / 2].
Proof.
  destruct (batch_normalize_defined 3 [0; 2]) as (mu & v & Em & Ev & _ & E);
    [discriminate | lra |].
  rewrite mean_0_2 in Em. injection Em as <-.
  rewrite variance_0_2 in Ev. injection Ev as <-.
  rewrite E, sqrt_4. unfold rescaled. simpl. repeat f_equal; field.
Qed.

Lemma variance_half_half : Stats.variance [- (1 / 2); 1 / 2] = Some (1 / 4).
Proof.
  rewrite variance_defined by discriminate.
  f_equal. unfold Stats.count. simpl. field.
Qed.

Lemma batch_normalize_singleton_0 : BatchNorm.normalize 3 [0] = Some [0].
Proof.
  destruct (batch_normalize_defined 3 [0]) as (mu & v & Em & Ev & Hv & E);
    [discriminate | lra |].
  rewrite E. pose proof (mean_constant 0 0) as Em'. simpl in Em'.
  rewrite Em' in Em. injection Em as <-.
  unfold rescaled. simpl. repeat f_equal. unfold Rdiv. ring.
Qed.

(** The empty list has no mean, so it has no normalized values: a mini-batch
    [x_1 .. x_n] has at least one value. *)
Example batch_normalize_empty (epsilon : R) : BatchNorm.normalize epsilon [] = None.
Proof. unfold BatchNorm.normalize. now rewrite mean_empty. Qed.

(** C3: for a mini-batch [x_1 .. x_n] (at least one value) and a positive
    [epsilon], the normalized values exist, one per value of the batch, and
    their mean is exactly 0. *)
Theorem batch_norm_zero_mean (epsilon : R) (batch : list R) :
  batch <> [] -> 0 < epsilon ->
  exists xs,
    BatchNorm.normalize epsilon batch = Some xs /\
    length xs = length batch /\
    Stats.mean xs = Some 0.
Proof.
  intros Hl He.
  destruct (batch_normalize_defined epsilon batch Hl He)
    as (mu & v & Em & Ev & Hv & E).
  exists (rescaled mu (sqrt (v + epsilon)) batch).
  split; [exact E |]. split; [apply rescaled_length |].
  now apply mean_rescaled.
Qed.

Lemma batch_norm_zero_mean_witness :
  [0; 2] <> [] /\ 0 < 3 /\
  exists xs,
    BatchNorm.normalize 3 [0; 2] = Some xs /\
    length xs = 2%nat /\
    Stats.mean xs = Some 0.
Proof.
  split; [discriminate |]. split; [lra |].
  apply (batch_norm_zero_mean 3 [0; 2]); [discriminate | lra].
Defined.

(** C4: for a mini-batch [x_1 .. x_n] (at least one value) with variance
    [sigma_B^2] and a positive [epsilon], the normalized values have variance
    exactly [sigma_B^2 / (sigma_B^2 + epsilon)], a number in [0, 1): never 1,
    because of the [epsilon] under the square root. *)
Theorem batch_norm_variance (epsilon : R) (batch : list R) :
  batch <> [] -> 0 < epsilon ->
  exists var_B xs,
    Stats.variance batch = Some var_B /\
    BatchNorm.normalize epsilon batch = Some xs /\
    Stats.variance xs = Some (var_B / (var_B + epsilon)) /\
    0 <= var_B / (var_B + epsilon) < 1.
Proof.
  intros Hl He.
  destruct (batch_normalize_defined epsilon batch Hl He)
    as (mu & v & Em & Ev & Hv & E).
  exists v, (rescaled mu (sqrt (v + epsilon)) batch).
  split; [exact Ev |]. split; [exact E |].
  split; [now apply batch_normalize_variance |].
  assert (0 < v + epsilon) as Hpos by lra.
  split.
  - apply Rmult_le_pos; [assumption |].
    now apply Rlt_le, Rinv_0_lt_compat.
  - apply (Rmult_lt_reg_r (v + epsilon)); [assumption |].
    unfold Rdiv. rewrite Rmult_assoc, Rinv_l by lra. lra.
Qed.

Lemma batch_norm_variance_witness :
  [0; 2] <> [] /\ 0 < 3 /\
  exists var_B xs,
    Stats.variance [0; 2] = Some var_B /\
    BatchNorm.normalize 3 [0; 2] = Some xs /\
    Stats.variance xs = Some (var_B / (var_B + 3)).
Proof.
  split; [discriminate |]. split; [lra |].
  destruct (batch_norm_variance 3 [0; 2]) as (v & xs & Ev & E & Evx & _);
    [discriminate | lra |].
  exists v, xs. repeat split; assumption.
Defined.

(** C4, unit variance does not hold: with [epsilon = 3] the mini-batch
    [0; 2] (mean 1, variance 1) is normalized to [-1/2; 1/2], whose variance
    is 1/4, not 1. *)
Lemma batch_norm_unit_variance_fails :
  [0; 2] <> [] /\ 0 < 3 /\
  BatchNorm.normalize 3 [0; 2] = Some [- (1 / 2); 1 / 2] /\
  Stats.variance [- (1 / 2); 1 / 2] = Some (1 / 4) /\
  Stats.variance [- (1 / 2); 1 / 2] <> Some 1.
Proof.
  split; [discriminate |]. split; [lra |].
  split; [exact batch_normalize_0_2 |].
  split; [exact variance_half_half |].
  rewrite variance_half_half. intros E. injection E as E. lra.
Qed.

(** Unlike layer normalization, batch normalization of a value depends on the
    batch: the value 0 is normalized to -1/2 in [0; 2] and to 0 in [0]. *)
Lemma batch_norm_depends_on_batch :
  (x <- BatchNorm.normalize 3 [0; 2] ;; nth_error x 0) = Some (- (1 / 2)) /\
  (x <- BatchNorm.normalize 3 [0] ;; nth_error x 0) = Some 0 /\
  - (1 / 2) <> 0.
Proof.
  rewrite batch_normalize_0_2, batch_normalize_singleton_0.
  repeat split. lra.
Qed.

(** C9: for a mini-batch, and for the features of an example, with variance
    [sigma^2], and a positive [epsilon], [sqrt (sigma^2 + epsilon)] is
    strictly positive, so both formulas divide by a nonzero number: [x_hat]
    has a value for every input, and so has the whole normalized list. *)
Theorem sqrt_variance_epsilon_positive (epsilon : R) (l : list R) :
  l <> [] -> 0 < epsilon ->
  exists var,
    Stats.variance l = Some var /\
    0 <= var /\
    0 < sqrt (var + epsilon) /\
    (forall mu x,
       BatchNorm.x_hat mu var epsilon x = Some ((x - mu) / sqrt (var + epsilon))) /\
    (forall mu x,
       LayerNorm.x_hat mu var epsilon x = Some ((x - mu) / sqrt (var + epsilon))) /\
    (exists xs, BatchNorm.normalize epsilon l = Some xs) /\
    (exists xs, LayerNorm.normalize epsilon l = Some xs).
Proof.
  intros Hl He.
  destruct (batch_normalize_defined epsilon l Hl He)
    as (mu & v & Em & Ev & Hv & EB).
  destruct (layer_normalize_defined epsilon l Hl He)
    as (mu' & v' & Em' & Ev' & _ & EL).
  pose proof (sqrt_shift_pos v epsilon Hv He) as Hpos.
  exists v. split; [exact Ev |]. split; [exact Hv |]. split; [exact Hpos |].
  split; [| split; [| split]].
  - intros m x. apply div_defined. lra.
  - intros m x. apply div_defined. lra.
  - eexists. exact EB.
  - eexists. exact EL.
Qed.

(** The witness is a mini-batch of equal values: its variance is 0. *)
Lemma sqrt_variance_epsilon_positive_witness :
  [4; 4; 4] <> [] /\ 0 < 1 /\
  Stats.variance [4; 4; 4] = Some 0 /\
  exists var,
    Stats.variance [4; 4; 4] = Some var /\
    0 < sqrt (var + 1) /\
    (exists xs, BatchNorm.normalize 1 [4; 4; 4] = Some xs) /\
    (exists xs, LayerNorm.normalize 1 [4; 4; 4] = Some xs).
Proof.
  split; [discriminate |]. split; [lra |].
  split; [exact (variance_constant 4 2) |].
  destruct (sqrt_variance_epsilon_positive 1 [4; 4; 4])
    as (v & Ev & _ & Hpos & _ & _ & HB & HL); [discriminate | lra |].
  exists v. repeat split; assumption.
Defined.

(** C10: for a mini-batch [x_1 .. x_n] (at least one value) with mean [mu_B]
    and variance [sigma_B^2], and a positive [epsilon], the output with
    [gamma = sqrt (sigma_B^2 + epsilon)] and [beta = mu_B] is the input. *)
Theorem batch_norm_undo (epsilon : R) (batch : list R) :
  batch <> [] -> 0 < epsilon ->
  exists mu_B var_B,
    Stats.mean batch = Some mu_B /\
    Stats.variance batch = Some var_B /\
    BatchNorm.forward epsilon (sqrt (var_B + epsilon)) mu_B batch = Some batch /\
    (forall x,
       xh <- BatchNorm.x_hat mu_B var_B epsilon x ;;
       Some (BatchNorm.y (sqrt (var_B + epsilon)) mu_B xh) = Some x).
Proof.
  intros Hl He.
  destruct (batch_normalize_defined epsilon batch Hl He)
    as (mu & v & Em & Ev & Hv & E).
  pose proof (sqrt_shift_pos v epsilon Hv He) as Hpos.
  exists mu, v. split; [exact Em |]. split; [exact Ev |]. split.
  - unfold BatchNorm.forward. rewrite E. simpl Guarded.bind.
    f_equal. unfold rescaled. rewrite map_map.
    rewrite <- (map_id batch) at 2. apply map_ext.
    intros x. unfold BatchNorm.y. field. lra.
  - intros x. unfold BatchNorm.x_hat. rewrite div_defined by lra.
    simpl Guarded.bind. f_equal. unfold BatchNorm.y. field. lra.
Qed.

Lemma batch_norm_undo_witness :
  [0; 2] <> [] /\ 0 < 3 /\
  exists mu_B var_B,
    Stats.mean [0; 2] = Some mu_B /\
    Stats.variance [0; 2] = Some var_B /\
    BatchNorm.forward 3 (sqrt (var_B + 3)) mu_B [0; 2] = Some [0; 2].
Proof.
  split; [discriminate |]. split; [lra |].
  destruct (batch_norm_undo 3 [0; 2]) as (mu & v & Em & Ev & E & _);
    [discriminate | lra |].
  exists mu, v. repeat split; assumption.
Defined.

End BatchNormFacts.

Section LayerContrast.

Local Open Scope R_scope.

(** Batch normalization, in contrast, gives the same example different
    outputs in different batches: with [epsilon = 3], gain 1 and bias 0 the
    example [0] alone is sent to [0], and next to the example [2] it is sent
    to [-1/2]. *)
Lemma batch_norm_layer_depends_on_batch :
  nth_error (Layer.batch_norm 3 (fun _ => 1) (fun _ => 0) [[0]]) 0
  = Some (Some [0]) /\
  nth_error (Layer.batch_norm 3 (fun _ => 1) (fun _ => 0) [[0]; [2]]) 0
  = Some (Some [- (1 / 2)]) /\
  [0] <> [- (1 / 2)].
Proof.
  split; [| split].
  - unfold Layer.batch_norm, Layer.forward, Layer.entry. simpl.
    pose proof (mean_constant 0 0) as Em. simpl in Em. rewrite Em.
    pose proof (variance_constant 0 0) as Ev. simpl in Ev. rewrite Ev.
    cbv beta iota delta [Guarded.bind]. unfold BatchNorm.x_hat.
    rewrite div_defined
      by (apply Rgt_not_eq, Rlt_gt, sqrt_shift_pos; lra).
    cbv beta iota delta [Guarded.bind]. unfold BatchNorm.y.
    do 3 f_equal. unfold Rdiv. ring.
  - unfold Layer.batch_norm, Layer.forward, Layer.entry. simpl.
    rewrite mean_0_2, variance_0_2.
    cbv beta iota delta [Guarded.bind]. unfold BatchNorm.x_hat.
    rewrite sqrt_4, div_defined by lra.
    cbv beta iota delta [Guarded.bind]. unfold BatchNorm.y.
    do 3 f_equal. field.
  - intros E. injection E as E. lra.
Qed.

End LayerContrast.

(** ** Z-score normalization *)

Section ZScoreFacts.

Local Open Scope R_scope.

Lemma std_value (l : list R) (sigma : R) :
  Stats.std l = Some sigma ->
  exists v, Stats.variance l = Some v /\ sigma = sqrt v /\ 0 <= v.
Proof.
  unfold Stats.std. destruct (Stats.variance l) as [v |] eqn:Ev; [| discriminate].
  simpl. intros E. injection E as <-.
  exists v. repeat split. now apply (variance_nonneg l).
Qed.

Lemma std_0_2 : Stats.std [0; 2] = Some 1.
Proof.
  unfold Stats.std. rewrite variance_0_2. simpl. f_equal. apply sqrt_1.
Qed.

(** A nonzero square root squares back to a nonzero number. *)
Lemma sqrt_nonzero_sqr (v : R) :
  0 <= v -> sqrt v <> 0 -> v / (sqrt v * sqrt v) = 1.
Proof.
  intros Hv Hs. rewrite sqrt_sqrt by assumption.
  assert (v <> 0) as Hv0 by (intros ->; apply Hs, sqrt_0).
  now field.
Qed.

(** C2: for a non-empty sample with mean [mu] and standard deviation [sigma],
    if [sigma] is nonzero then the z-score formula has a value on every value
    of the sample, and the normalized sample has mean exactly 0 and standard
    deviation exactly 1. *)
Theorem z_score_zero_mean_unit_std (l : list R) (mu sigma : R) :
  l <> [] ->
  Stats.mean l = Some mu ->
  Stats.std l = Some sigma ->
  sigma <> 0 ->
  exists l',
    ZScore.standardize_sample l = Some l' /\
    length l' = length l /\
    Stats.mean l' = Some 0 /\
    Stats.std l' = Some 1.
Proof.
  intros _ Em Es Hs.
  destruct (std_value l sigma Es) as (v & Ev & Esig & Hv).
  exists (rescaled mu sigma l). split; [| split; [| split]].
  - unfold ZScore.standardize_sample. rewrite Em, Es. simpl Guarded.bind.
    unfold ZScore.standardize. now apply traverse_rescaled.
  - apply rescaled_length.
  - now apply mean_rescaled.
  - unfold Stats.std.
    rewrite (variance_rescaled mu sigma l v Em Ev Hs). simpl Guarded.bind.
    subst sigma. rewrite (sqrt_nonzero_sqr v Hv Hs). now rewrite sqrt_1.
Qed.

Lemma z_score_zero_mean_unit_std_witness :
  [0; 2] <> [] /\
  Stats.mean [0; 2] = Some 1 /\
  Stats.std [0; 2] = Some 1 /\
  1 <> 0 /\
  exists l',
    ZScore.standardize_sample [0; 2] = Some l' /\
    length l' = 2%nat /\
    Stats.mean l' = Some 0 /\
    Stats.std l' = Some 1.
Proof.
  split; [discriminate |]. split; [exact mean_0_2 |].
  split; [exact std_0_2 |]. split; [lra |].
  apply (z_score_zero_mean_unit_std [0; 2] 1 1);
    [discriminate | exact mean_0_2 | exact std_0_2 | lra].
Defined.

(** The normalized sample of the witness. *)
Example z_score_0_2 : ZScore.standardize_sample [0; 2] = Some [-1; 1].
Proof.
  unfold ZScore.standardize_sample. rewrite mean_0_2, std_0_2.
  cbv beta iota delta [Guarded.bind ZScore.standardize].
  rewrite (traverse_rescaled 1 1) by lra.
  unfold rescaled. simpl. repeat f_equal; field.
Qed.

(** A sample of equal values has standard deviation 0: the formula has no
    value on it. *)
Example z_score_constant_sample : ZScore.standardize_sample [4; 4; 4] = None.
Proof.
  unfold ZScore.standardize_sample, Stats.std.
  change [4; 4; 4] with (repeat 4 3).
  rewrite (mean_constant 4 2), (variance_constant 4 2).
  cbv beta iota delta [Guarded.bind ZScore.standardize].
  rewrite sqrt_0. apply traverse_stuck. apply div_undefined.
Qed.

(** The same holds when both standard deviations are taken with the divisor
    [n - 1]. *)
Lemma count_ge_1 (l : list R) : l <> [] -> 1 <= Stats.count l.
Proof.
  destruct l as [| x xs]; [congruence | intros _].
  rewrite count_cons. pose proof (count_nonneg xs). lra.
Qed.

Lemma variance_unbiased_value (l : list R) (mu v : R) :
  Stats.mean l = Some mu -> Stats.variance_unbiased l = Some v ->
  1 < Stats.count l /\
  v = Stats.total (Stats.sq_dev mu l) / (Stats.count l - 1) /\
  0 <= v.
Proof.
  intros Em Ev. pose proof (count_ge_1 l (mean_nonempty l mu Em)) as Hc.
  unfold Stats.variance_unbiased in Ev. rewrite Em in Ev. simpl in Ev.
  apply div_value in Ev as [Hd ->].
  assert (1 < Stats.count l) as Hlt by lra.
  repeat split; [assumption |].
  apply Rmult_le_pos; [apply total_sq_dev_nonneg |].
  apply Rlt_le, Rinv_0_lt_compat. lra.
Qed.

Lemma variance_unbiased_rescaled (mu d : R) (l : list R) (v : R) :
  Stats.mean l = Some mu -> Stats.variance_unbiased l = Some v -> d <> 0 ->
  Stats.variance_unbiased (rescaled mu d l) = Some (v / (d * d)).
Proof.
  intros Em Ev Hd.
  destruct (variance_unbiased_value l mu v Em Ev) as (Hc & -> & _).
  unfold Stats.variance_unbiased.
  rewrite (mean_rescaled mu d l Em). simpl Guarded.bind.
  rewrite rescaled_count, (total_sq_dev_rescaled mu d l Hd).
  rewrite div_defined by lra.
  f_equal. field. split; lra.
Qed.

Lemma z_score_unbiased (l : list R) (mu sigma : R) :
  Stats.mean l = Some mu ->
  Stats.std_unbiased l = Some sigma ->
  sigma <> 0 ->
  Stats.mean (rescaled mu sigma l) = Some 0 /\
  Stats.std_unbiased (rescaled mu sigma l) = Some 1.
Proof.
  intros Em Es Hs. split; [now apply mean_rescaled |].
  unfold Stats.std_unbiased in *.
  destruct (Stats.variance_unbiased l) as [v |] eqn:Ev; [| discriminate].
  simpl in Es. injection Es as <-.
  destruct (variance_unbiased_value l mu v Em Ev) as (_ & _ & Hv).
  rewrite (variance_unbiased_rescaled mu (sqrt v) l v Em Ev Hs).
  simpl Guarded.bind. rewrite (sqrt_nonzero_sqr v Hv Hs). now rewrite sqrt_1.
Qed.

End ZScoreFacts.

(** ** Change of units: samples under [x |-> a * x + b] *)

Section AffineFacts.

Local Open Scope R_scope.

Variables a b : R.

Lemma total_affine (l : list R) :
  Stats.total (map (fun x => a * x + b) l) = a * Stats.total l + b * Stats.count l.
Proof.
  induction l as [| x xs IH].
  - unfold Stats.count. simpl. ring.
  - rewrite count_cons.
    change (Stats.total (map (fun x => a * x + b) (x :: xs)))
      with (a * x + b + Stats.total (map (fun x => a * x + b) xs)).
    rewrite IH. simpl. ring.
Qed.

Lemma mean_affine (l : list R) (mu : R) :
  Stats.mean l = Some mu ->
  Stats.mean (map (fun x => a * x + b) l) = Some (a * mu + b).
Proof.
  intros Em. pose proof (count_pos l (mean_nonempty l mu Em)) as Hc.
  unfold Stats.mean. rewrite count_map, total_affine, (mean_total l mu Em).
  rewrite div_defined by lra. f_equal. field. lra.
Qed.

Lemma mean_affine_none (l : list R) :
  Stats.mean l = None -> Stats.mean (map (fun x => a * x + b) l) = None.
Proof.
  intros E. destruct l as [| x xs]; [exact E |].
  rewrite mean_defined in E by discriminate. discriminate.
Qed.

Lemma total_sq_dev_affine (l : list R) (mu : R) :
  Stats.total (Stats.sq_dev (a * mu + b) (map (fun x => a * x + b) l))
  = a * a * Stats.total (Stats.sq_dev mu l).
Proof.
  induction l as [| x xs IH].
  - simpl. ring.
  - change (Stats.total (Stats.sq_dev (a * mu + b) (map (fun x => a * x + b) (x :: xs))))
      with ((a * x + b - (a * mu + b)) * (a * x + b - (a * mu + b))
            + Stats.total (Stats.sq_dev (a * mu + b) (map (fun x => a * x + b) xs))).
    rewrite IH. simpl. ring.
Qed.

Lemma variance_affine (l : list R) (v : R) :
  Stats.variance l = Some v ->
  Stats.variance (map (fun x => a * x + b) l) = Some (a * a * v).
Proof.
  intros Ev. unfold Stats.variance in *.
  destruct (Stats.mean l) as [mu |] eqn:Em; [| discriminate].
  pose proof (count_pos l (mean_nonempty l mu Em)) as Hc.
  rewrite (mean_affine l mu Em). simpl in *.
  apply div_value in Ev as [_ ->].
  rewrite count_map, total_sq_dev_affine.
  rewrite div_defined by lra. f_equal. field. lra.
Qed.

Lemma variance_affine_none (l : list R) :
  Stats.variance l = None ->
  Stats.variance (map (fun x => a * x + b) l) = None.
Proof.
  intros E. destruct l as [| x xs]; [exact E |].
  rewrite variance_defined in E by discriminate. discriminate.
Qed.

End AffineFacts.

Section TraverseFacts.

Local Open Scope R_scope.

Lemma traverse_map {A B C : Type} (f : B -> option C) (g : A -> B) (l : list A) :
  Guarded.traverse f (map g l) = Guarded.traverse (fun x => f (g x)) l.
Proof.
  induction l as [| x xs IH]; simpl; [reflexivity | now rewrite IH].
Qed.

Lemma traverse_ext {A B : Type} (f g : A -> option B) (l : list A) :
  (forall x, f x = g x) -> Guarded.traverse f l = Guarded.traverse g l.
Proof.
  intros H. induction l as [| x xs IH]; simpl; [reflexivity |].
  now rewrite H, IH.
Qed.

(** A fraction does not change when both terms are multiplied by a nonzero
    number; this includes the case where it has no value. *)
Lemma div_cancel (k n d : R) :
  k <> 0 -> Guarded.div (k * n) (k * d) = Guarded.div n d.
Proof.
  intros Hk. unfold Guarded.div.
  destruct (Req_dec_T (k * d) 0) as [E | N], (Req_dec_T d 0) as [E' | N'].
  - reflexivity.
  - exfalso. apply Rmult_integral in E as [E | E]; contradiction.
  - exfalso. apply N. rewrite E'. ring.
  - f_equal. now field.
Qed.

(** A centred-and-divided non-empty list has a value only for a nonzero
    divisor. *)
Lemma traverse_div_value (mu d : R) (l l' : list R) :
  l <> [] ->
  Guarded.traverse (fun x => Guarded.div (x - mu) d) l = Some l' ->
  d <> 0 /\ l' = rescaled mu d l.
Proof.
  intros Hl E. destruct (Req_dec_T d 0) as [-> | Hd].
  - destruct l as [| x xs]; [congruence |].
    rewrite traverse_stuck in E by apply div_undefined. discriminate.
  - split; [assumption |].
    rewrite (traverse_rescaled mu d l Hd) in E. now injection E as <-.
Qed.

Lemma rescaled_0_1 (l : list R) : rescaled 0 1 l = l.
Proof.
  unfold rescaled. rewrite <- (map_id l) at 2. apply map_ext.
  intros x. field.
Qed.

End TraverseFacts.

(** ** Samples of equal values and sums of squares *)

Section SpreadFacts.

Local Open Scope R_scope.

Lemma sq_dev_le_total (mu : R) (l : list R) (x : R) :
  In x l -> (x - mu) * (x - mu) <= Stats.total (Stats.sq_dev mu l).
Proof.
  induction l as [| z zs IH]; [intros [] |].
  change (Stats.total (Stats.sq_dev mu (z :: zs)))
    with ((z - mu) * (z - mu) + Stats.total (Stats.sq_dev mu zs)).
  pose proof (total_sq_dev_nonneg mu zs) as Hz.
  pose proof (Rle_0_sqr (z - mu)) as Hs. unfold Rsqr in Hs.
  intros [-> | Hin].
  - lra.
  - specialize (IH Hin). lra.
Qed.

(** No spread around [mu] means every value is [mu]. *)
Lemma total_sq_dev_zero (mu : R) (l : list R) (x : R) :
  Stats.total (Stats.sq_dev mu l) = 0 -> In x l -> x = mu.
Proof.
  intros E Hin. pose proof (sq_dev_le_total mu l x Hin) as Hle.
  rewrite E in Hle.
  pose proof (Rle_0_sqr (x - mu)) as Hs. unfold Rsqr in Hs.
  assert ((x - mu) * (x - mu) = 0) as Hz by lra.
  apply Rmult_integral in Hz. lra.
Qed.

Lemma variance_zero_equal (l : list R) (mu : R) (x : R) :
  Stats.mean l = Some mu -> Stats.variance l = Some 0 -> In x l -> x = mu.
Proof.
  intros Em Ev Hin.
  pose proof (count_pos l (mean_nonempty l mu Em)) as Hc.
  pose proof (variance_value l mu 0 Em Ev) as E.
  apply (total_sq_dev_zero mu l); [| assumption].
  apply (Rmult_eq_reg_r (/ Stats.count l)).
  - unfold Rdiv in E. rewrite <- E. ring.
  - apply Rinv_neq_0_compat. lra.
Qed.

Lemma all_equal_repeat (x : R) (xs : list R) :
  all_equal (x :: xs) -> x :: xs = repeat x (S (length xs)).
Proof.
  intros H. change (S (length xs)) with (length (x :: xs)).
  apply Forall_eq_repeat. apply Forall_forall.
  intros y Hy. apply H; [now left | assumption].
Qed.

Lemma all_equal_bounds (l : list R) (lo hi : R) :
  Stats.sample_min l = Some lo -> Stats.sample_max l = Some hi ->
  (all_equal l <-> hi = lo).
Proof.
  intros Emin Emax. split.
  - intros H. apply H; [now apply sample_max_in | now apply sample_min_in].
  - intros -> x y Hx Hy.
    pose proof (sample_min_le l lo x Emin Hx).
    pose proof (sample_max_ge l lo x Emax Hx).
    pose proof (sample_min_le l lo y Emin Hy).
    pose proof (sample_max_ge l lo y Emax Hy).
    lra.
Qed.

Lemma sample_min_le_max (l : list R) (lo hi : R) :
  Stats.sample_min l = Some lo -> Stats.sample_max l = Some hi -> lo <= hi.
Proof.
  intros Emin Emax. apply (sample_min_le l lo hi Emin).
  now apply sample_max_in.
Qed.

(** A value of the sample that bounds it is its minimum (maximum). *)
Lemma sample_min_unique (l : list R) (m : R) :
  In m l -> (forall x, In x l -> m <= x) -> Stats.sample_min l = Some m.
Proof.
  intros Hin Hle. destruct l as [| x0 xs]; [destruct Hin |].
  simpl. f_equal. apply Rle_antisym.
  - apply fold_min_le. destruct Hin as [-> | H]; [now left | now right].
  - apply Hle. apply fold_min_in.
Qed.

Lemma sample_max_unique (l : list R) (m : R) :
  In m l -> (forall x, In x l -> x <= m) -> Stats.sample_max l = Some m.
Proof.
  intros Hin Hle. destruct l as [| x0 xs]; [destruct Hin |].
  simpl. f_equal. apply Rle_antisym.
  - apply Hle. apply fold_max_in.
  - apply fold_max_ge. destruct Hin as [-> | H]; [now left | now right].
Qed.

End SpreadFacts.

(** ** Z-score normalization: edge cases, units, composition *)

Section ZScoreMore.

Local Open Scope R_scope.

(** What a value of the sample-level formula tells. *)
Lemma standardize_sample_value (l l' : list R) :
  ZScore.standardize_sample l = Some l' ->
  exists mu v,
    Stats.mean l = Some mu /\ Stats.variance l = Some v /\ 0 < v /\
    0 < sqrt v /\ l' = rescaled mu (sqrt v) l.
Proof.
  unfold ZScore.standardize_sample, Stats.std.
  destruct (Stats.mean l) as [mu |] eqn:Em; [| discriminate].
  destruct (Stats.variance l) as [v |] eqn:Ev; [| discriminate].
  cbv beta iota delta [Guarded.bind ZScore.standardize]. intros E.
  apply traverse_div_value in E as [Hs ->]; [| exact (mean_nonempty l mu Em)].
  pose proof (variance_nonneg l v Ev) as Hv.
  pose proof (sqrt_pos v) as Hp.
  assert (v <> 0) as Hv0 by (intros ->; apply Hs, sqrt_0).
  exists mu, v. repeat split; try assumption; lra.
Qed.

Lemma standardize_sample_unit (l : list R) (mu v : R) :
  Stats.mean l = Some mu -> Stats.variance l = Some v -> 0 < v ->
  Stats.mean (rescaled mu (sqrt v) l) = Some 0 /\
  Stats.variance (rescaled mu (sqrt v) l) = Some 1.
Proof.
  intros Em Ev Hv.
  assert (sqrt v <> 0) as Hs
    by (apply Rgt_not_eq, Rlt_gt, sqrt_lt_R0; assumption).
  split; [now apply mean_rescaled |].
  rewrite (variance_rescaled mu (sqrt v) l v Em Ev Hs).
  f_equal. apply sqrt_nonzero_sqr; [lra | assumption].
Qed.

(** X1: the z-score of a sample has no value exactly when the sample has no
    two distinct values: it is empty (no mean) or all its values are equal
    (standard deviation zero). *)
Theorem z_score_undefined_iff (l : list R) :
  ZScore.standardize_sample l = None <-> all_equal l.
Proof.
  split.
  - intros E. destruct l as [| x0 xs]; [intros x y [] |].
    set (l := x0 :: xs) in *.
    assert (l <> []) as Hl by discriminate.
    pose proof (mean_defined l Hl) as Em.
    pose proof (variance_defined l Hl) as Ev.
    set (mu := Stats.total l / Stats.count l) in *.
    set (v := Stats.total (Stats.sq_dev mu l) / Stats.count l) in *.
    unfold ZScore.standardize_sample, Stats.std in E.
    rewrite Em, Ev in E.
    cbv beta iota delta [Guarded.bind ZScore.standardize] in E.
    destruct (Req_dec_T (sqrt v) 0) as [Hs | Hs].
    + apply sqrt_eq_0 in Hs; [| exact (variance_nonneg l v Ev)].
      rewrite Hs in Ev. intros x y Hx Hy.
      rewrite (variance_zero_equal l mu x Em Ev Hx).
      now rewrite (variance_zero_equal l mu y Em Ev Hy).
    + rewrite (traverse_rescaled mu (sqrt v) l Hs) in E. discriminate.
  - intros H. destruct l as [| x0 xs].
    + unfold ZScore.standardize_sample. now rewrite mean_empty.
    + rewrite (all_equal_repeat x0 xs H).
      unfold ZScore.standardize_sample, Stats.std.
      rewrite mean_constant, variance_constant.
      cbv beta iota delta [Guarded.bind ZScore.standardize].
      rewrite sqrt_0. apply traverse_stuck, div_undefined.
Qed.

(** X2: the z-score does not depend on the unit of the data: replacing every
    value [x] by [a * x + b] with [a > 0] leaves the normalized sample
    unchanged (and leaves it without a value when it had none). *)
Theorem z_score_affine_invariant (a b : R) (l : list R) :
  0 < a ->
  ZScore.standardize_sample (map (fun x => a * x + b) l)
  = ZScore.standardize_sample l.
Proof.
  intros Ha. unfold ZScore.standardize_sample, Stats.std.
  destruct (Stats.mean l) as [mu |] eqn:Em.
  - rewrite (mean_affine a b l mu Em).
    pose proof (variance_defined l (mean_nonempty l mu Em)) as Ev.
    pose proof (variance_nonneg l _ Ev) as Hv.
    rewrite (variance_affine a b l _ Ev), Ev.
    cbv beta iota delta [Guarded.bind ZScore.standardize].
    rewrite traverse_map. apply traverse_ext. intros x.
    rewrite sqrt_mult by nra. rewrite sqrt_square by lra.
    replace (a * x + b - (a * mu + b)) with (a * (x - mu)) by ring.
    apply div_cancel. lra.
  - now rewrite (mean_affine_none a b l Em).
Qed.

Lemma z_score_affine_invariant_witness :
  0 < 2 /\
  ZScore.standardize_sample (map (fun x => 2 * x + 3) [0; 2])
  = ZScore.standardize_sample [0; 2].
Proof.
  split; [lra |]. apply (z_score_affine_invariant 2 3 [0; 2]). lra.
Defined.

(** X3: z-score normalization is idempotent: a normalized sample has mean 0
    and standard deviation 1, so normalizing it again returns it. *)
Theorem z_score_idempotent (l l' : list R) :
  ZScore.standardize_sample l = Some l' ->
  ZScore.standardize_sample l' = Some l'.
Proof.
  intros E.
  destruct (standardize_sample_value l l' E) as (mu & v & Em & Ev & Hv & _ & ->).
  destruct (standardize_sample_unit l mu v Em Ev Hv) as [Em' Ev'].
  unfold ZScore.standardize_sample, Stats.std. rewrite Em', Ev'.
  cbv beta iota delta [Guarded.bind ZScore.standardize].
  rewrite sqrt_1, traverse_rescaled by lra.
  f_equal. apply rescaled_0_1.
Qed.

Lemma z_score_idempotent_witness :
  ZScore.standardize_sample [0; 2] = Some [-1; 1] /\
  ZScore.standardize_sample [-1; 1] = Some [-1; 1].
Proof.
  split; [exact z_score_0_2 |].
  apply (z_score_idempotent [0; 2] [-1; 1]). exact z_score_0_2.
Defined.

(** X4: in a normalized sample of [n] values the squares add up to [n], so
    every z-score lies between [- sqrt n] and [sqrt n]: its square is at
    most [n]. *)
Theorem z_score_bounded (l l' : list R) :
  ZScore.standardize_sample l = Some l' ->
  Stats.total (map (fun z => z * z) l') = Stats.count l /\
  Forall (fun z => z * z <= Stats.count l) l'.
Proof.
  intros E.
  destruct (standardize_sample_value l l' E) as (mu & v & Em & Ev & Hv & _ & ->).
  destruct (standardize_sample_unit l mu v Em Ev Hv) as [Em' Ev'].
  pose proof (count_pos l (mean_nonempty l mu Em)) as Hc.
  pose proof (variance_value _ 0 1 Em' Ev') as E1.
  rewrite rescaled_count in E1.
  assert (Stats.total (Stats.sq_dev 0 (rescaled mu (sqrt v) l)) = Stats.count l)
    as Et.
  { apply (Rmult_eq_reg_r (/ Stats.count l)).
    - unfold Rdiv in E1. rewrite <- E1. field. lra.
    - apply Rinv_neq_0_compat. lra. }
  split.
  - rewrite <- Et. unfold Stats.sq_dev. f_equal. apply map_ext.
    intros z. ring.
  - apply Forall_forall. intros z Hz. rewrite <- Et.
    pose proof (sq_dev_le_total 0 _ z Hz) as Hle.
    replace (z * z) with ((z - 0) * (z - 0)) by ring. exact Hle.
Qed.

Lemma z_score_bounded_witness :
  ZScore.standardize_sample [0; 2] = Some [-1; 1] /\
  Stats.total (map (fun z => z * z) [-1; 1]) = Stats.count [0; 2] /\
  Forall (fun z => z * z <= Stats.count [0; 2]) [-1; 1].
Proof.
  split; [exact z_score_0_2 |].
  apply (z_score_bounded [0; 2] [-1; 1]). exact z_score_0_2.
Defined.

(** X5: whenever the z-score of a sample has a value, the standard deviation
    is positive and the formula is strictly increasing: the ranking of any
    two inputs is kept. *)
Theorem z_score_strictly_increasing (l l' : list R) (mu sigma : R) :
  ZScore.standardize_sample l = Some l' ->
  Stats.mean l = Some mu ->
  Stats.std l = Some sigma ->
  0 < sigma /\
  forall X Y, X < Y ->
    exists X' Y',
      ZScore.standardize mu sigma X = Some X' /\
      ZScore.standardize mu sigma Y = Some Y' /\
      X' < Y'.
Proof.
  intros E Em Es.
  destruct (standardize_sample_value l l' E) as (mu' & v & Em' & Ev & Hv & Hs & _).
  unfold Stats.std in Es. rewrite Ev in Es. simpl in Es. injection Es as <-.
  split; [assumption |]. intros X Y HXY.
  exists ((X - mu) / sqrt v), ((Y - mu) / sqrt v).
  split; [apply div_defined; lra |]. split; [apply div_defined; lra |].
  unfold Rdiv. apply Rmult_lt_compat_r; [| lra].
  now apply Rinv_0_lt_compat.
Qed.

Lemma z_score_strictly_increasing_witness :
  ZScore.standardize_sample [0; 2] = Some [-1; 1] /\
  Stats.mean [0; 2] = Some 1 /\
  Stats.std [0; 2] = Some 1 /\
  0 < 1 /\
  exists X' Y',
    ZScore.standardize 1 1 0 = Some X' /\
    ZScore.standardize 1 1 2 = Some Y' /\
    X' < Y'.
Proof.
  destruct (z_score_strictly_increasing [0; 2] [-1; 1] 1 1
              z_score_0_2 mean_0_2 std_0_2) as [Hpos Hmono].
  split; [exact z_score_0_2 |]. split; [exact mean_0_2 |].
  split; [exact std_0_2 |]. split; [exact Hpos |].
  apply Hmono. lra.
Defined.

End ZScoreMore.

(** ** Min-max scaling: edge cases, units, composition *)

Section MinMaxMore.

Local Open Scope R_scope.

(** What a value of the sample-level formula tells. *)
Lemma scale_sample_value (l l' : list R) :
  MinMax.scale_sample l = Some l' ->
  exists lo hi,
    Stats.sample_min l = Some lo /\ Stats.sample_max l = Some hi /\
    lo < hi /\ l' = rescaled lo (hi - lo) l.
Proof.
  unfold MinMax.scale_sample.
  destruct (Stats.sample_min l) as [lo |] eqn:Emin; [| discriminate].
  destruct (Stats.sample_max l) as [hi |] eqn:Emax; [| discriminate].
  cbv beta iota delta [Guarded.bind MinMax.scale]. intros E.
  assert (l <> []) as Hl by (intros ->; discriminate).
  apply traverse_div_value in E as [Hd ->]; [| assumption].
  pose proof (sample_min_le_max l lo hi Emin Emax) as Hle.
  exists lo, hi. repeat split; try assumption. lra.
Qed.

(** The rescaled sample has minimum 0 and maximum 1. *)
Lemma rescaled_bounds (l : list R) (lo hi : R) :
  Stats.sample_min l = Some lo -> Stats.sample_max l = Some hi -> lo < hi ->
  Stats.sample_min (rescaled lo (hi - lo) l) = Some 0 /\
  Stats.sample_max (rescaled lo (hi - lo) l) = Some 1.
Proof.
  intros Emin Emax Hlt.
  assert ((lo - lo) / (hi - lo) = 0) as E0 by (field; lra).
  assert ((hi - lo) / (hi - lo) = 1) as E1 by (field; lra).
  assert (forall y, In y (rescaled lo (hi - lo) l) -> 0 <= y <= 1) as Hr.
  { intros y Hy. apply in_map_iff in Hy as [x [<- Hx]].
    apply scale_range; [assumption |]. split.
    - now apply (sample_min_le l).
    - now apply (sample_max_ge l). }
  split.
  - apply sample_min_unique.
    + rewrite <- E0. apply (in_map (fun x => (x - lo) / (hi - lo))).
      now apply sample_min_in.
    + intros y Hy. now apply Hr.
  - apply sample_max_unique.
    + rewrite <- E1. apply (in_map (fun x => (x - lo) / (hi - lo))).
      now apply sample_max_in.
    + intros y Hy. now apply Hr.
Qed.

(** The bounds of a sample follow an increasing change of units. *)
Lemma sample_min_affine (a b : R) (l : list R) (lo : R) :
  0 < a -> Stats.sample_min l = Some lo ->
  Stats.sample_min (map (fun x => a * x + b) l) = Some (a * lo + b).
Proof.
  intros Ha Emin. apply sample_min_unique.
  - apply (in_map (fun x => a * x + b)). now apply sample_min_in.
  - intros y Hy. apply in_map_iff in Hy as [x [<- Hx]].
    pose proof (sample_min_le l lo x Emin Hx). nra.
Qed.

Lemma sample_max_affine (a b : R) (l : list R) (hi : R) :
  0 < a -> Stats.sample_max l = Some hi ->
  Stats.sample_max (map (fun x => a * x + b) l) = Some (a * hi + b).
Proof.
  intros Ha Emax. apply sample_max_unique.
  - apply (in_map (fun x => a * x + b)). now apply sample_max_in.
  - intros y Hy. apply in_map_iff in Hy as [x [<- Hx]].
    pose proof (sample_max_ge l hi x Emax Hx). nra.
Qed.

(** X6: min-max scaling of a sample has no value exactly when the sample has
    no two distinct values: it is empty (no minimum) or all its values are
    equal (maximum equal to minimum). *)
Theorem min_max_undefined_iff (l : list R) :
  MinMax.scale_sample l = None <-> all_equal l.
Proof.
  destruct l as [| x0 xs].
  - split; [intros _ x y [] | reflexivity].
  - set (l := x0 :: xs).
    assert (Stats.sample_min l = Some (fold_right Rmin x0 xs)) as Emin
      by reflexivity.
    assert (Stats.sample_max l = Some (fold_right Rmax x0 xs)) as Emax
      by reflexivity.
    rewrite (all_equal_bounds l _ _ Emin Emax). split.
    + intros E.
      destruct (Req_dec_T (fold_right Rmax x0 xs) (fold_right Rmin x0 xs))
        as [Heq | Hne]; [assumption |].
      rewrite (scale_sample_defined l _ _ Emin Emax Hne) in E. discriminate.
    + intros Heq. rewrite Heq in Emax.
      now apply scale_sample_undefined with (m := fold_right Rmin x0 xs).
Qed.

(** X7: min-max scaling does not depend on the unit of the data: replacing
    every value [x] by [a * x + b] with [a > 0] leaves the rescaled sample
    unchanged (and leaves it without a value when it had none). *)
Theorem min_max_affine_invariant (a b : R) (l : list R) :
  0 < a ->
  MinMax.scale_sample (map (fun x => a * x + b) l) = MinMax.scale_sample l.
Proof.
  intros Ha. destruct l as [| x0 xs]; [reflexivity |].
  set (l := x0 :: xs).
  assert (Stats.sample_min l = Some (fold_right Rmin x0 xs)) as Emin
    by reflexivity.
  assert (Stats.sample_max l = Some (fold_right Rmax x0 xs)) as Emax
    by reflexivity.
  unfold MinMax.scale_sample.
  rewrite (sample_min_affine a b l _ Ha Emin), (sample_max_affine a b l _ Ha Emax).
  rewrite Emin, Emax.
  cbv beta iota delta [Guarded.bind MinMax.scale].
  rewrite traverse_map. apply traverse_ext. intros x.
  match goal with
  | |- Guarded.div ?n ?d = Guarded.div (x - ?lo) (?hi - ?lo) =>
      replace n with (a * (x - lo)) by ring;
      replace d with (a * (hi - lo)) by ring
  end.
  apply div_cancel. lra.
Qed.

Lemma min_max_affine_invariant_witness :
  0 < 2 /\
  MinMax.scale_sample (map (fun x => 2 * x + 3) [2; 1; 3])
  = MinMax.scale_sample [2; 1; 3].
Proof.
  split; [lra |]. apply (min_max_affine_invariant 2 3 [2; 1; 3]). lra.
Defined.

(** X8: min-max scaling is idempotent: a rescaled sample has minimum 0 and
    maximum 1, so rescaling it again returns it. *)
Theorem min_max_idempotent (l l' : list R) :
  MinMax.scale_sample l = Some l' ->
  Stats.sample_min l' = Some 0 /\
  Stats.sample_max l' = Some 1 /\
  MinMax.scale_sample l' = Some l'.
Proof.
  intros E.
  destruct (scale_sample_value l l' E) as (lo & hi & Emin & Emax & Hlt & ->).
  destruct (rescaled_bounds l lo hi Emin Emax Hlt) as [Emin' Emax'].
  split; [assumption |]. split; [assumption |].
  rewrite (scale_sample_defined _ 0 1 Emin' Emax') by lra.
  f_equal. replace (1 - 0) with 1 by ring. apply rescaled_0_1.
Qed.

Lemma min_max_idempotent_witness :
  MinMax.scale_sample [2; 1; 3] = Some [1 / 2; 0; 1] /\
  MinMax.scale_sample [1 / 2; 0; 1] = Some [1 / 2; 0; 1].
Proof.
  split; [exact min_max_scale_defined_example |].
  apply (min_max_idempotent [2; 1; 3] [1 / 2; 0; 1]).
  exact min_max_scale_defined_example.
Defined.

End MinMaxMore.

(** ** Batch and layer normalization: outputs, units, edge cases *)

Section NormMore.

Local Open Scope R_scope.

(** The two layers apply the same formulas; they differ in the list they are
    given (one activation over the batch, or the features of one example). *)
Lemma layer_normalize_eq (epsilon : R) (l : list R) :
  LayerNorm.normalize epsilon l = BatchNorm.normalize epsilon l.
Proof. reflexivity. Qed.

(** Mean and variance after scale and shift of a centred, divided list. *)
Lemma scale_shift_stats (gamma beta mu d v : R) (l : list R) :
  Stats.mean l = Some mu -> Stats.variance l = Some v -> d <> 0 ->
  Stats.mean (map (fun xh => gamma * xh + beta) (rescaled mu d l)) = Some beta /\
  Stats.variance (map (fun xh => gamma * xh + beta) (rescaled mu d l))
  = Some (gamma * gamma * (v / (d * d))).
Proof.
  intros Em Ev Hd. split.
  - rewrite (mean_affine gamma beta _ 0 (mean_rescaled mu d l Em)).
    f_equal. ring.
  - apply variance_affine. now apply variance_rescaled.
Qed.

(** Scaling the inputs by [a > 0] amounts to scaling [epsilon] by [a * a]. *)
Lemma batch_normalize_affine (a b epsilon : R) (l : list R) :
  0 < a ->
  BatchNorm.normalize (a * a * epsilon) (map (fun x => a * x + b) l)
  = BatchNorm.normalize epsilon l.
Proof.
  intros Ha. unfold BatchNorm.normalize.
  destruct (Stats.mean l) as [mu |] eqn:Em.
  - rewrite (mean_affine a b l mu Em).
    pose proof (variance_defined l (mean_nonempty l mu Em)) as Ev.
    rewrite (variance_affine a b l _ Ev), Ev.
    cbv beta iota delta [Guarded.bind BatchNorm.x_hat].
    rewrite traverse_map. apply traverse_ext. intros x.
    match goal with
    | |- Guarded.div _ (sqrt (a * a * ?v + _)) = _ =>
        replace (a * a * v + a * a * epsilon) with (a * a * (v + epsilon)) by ring
    end.
    rewrite sqrt_mult_alt by nra. rewrite sqrt_square by lra.
    replace (a * x + b - (a * mu + b)) with (a * (x - mu)) by ring.
    apply div_cancel. lra.
  - now rewrite (mean_affine_none a b l Em).
Qed.

Lemma batch_normalize_shift (c epsilon : R) (l : list R) :
  BatchNorm.normalize epsilon (map (fun x => x + c) l)
  = BatchNorm.normalize epsilon l.
Proof.
  rewrite <- (batch_normalize_affine 1 c epsilon l) by lra.
  replace (1 * 1 * epsilon) with epsilon by ring.
  f_equal. apply map_ext. intros x. ring.
Qed.

(** X9: for a mini-batch [x_1 .. x_n] (at least one value) and a positive
    [epsilon], the output [y = gamma * x_hat + beta] of batch normalization
    has mean exactly [beta] and variance exactly
    [gamma^2 * sigma_B^2 / (sigma_B^2 + epsilon)] over the mini-batch. *)
Theorem batch_norm_output_stats (epsilon gamma beta : R) (batch : list R) :
  batch <> [] -> 0 < epsilon ->
  exists var_B ys,
    Stats.variance batch = Some var_B /\
    BatchNorm.forward epsilon gamma beta batch = Some ys /\
    length ys = length batch /\
    Stats.mean ys = Some beta /\
    Stats.variance ys = Some (gamma * gamma * (var_B / (var_B + epsilon))).
Proof.
  intros Hl He.
  destruct (batch_normalize_defined epsilon batch Hl He)
    as (mu & v & Em & Ev & Hv & E).
  pose proof (sqrt_shift_pos v epsilon Hv He) as Hpos.
  assert (sqrt (v + epsilon) <> 0) as Hd by lra.
  destruct (scale_shift_stats gamma beta mu _ v batch Em Ev Hd) as [Hm Hvar].
  rewrite (sqrt_shift_sqr v epsilon Hv He) in Hvar.
  exists v, (map (fun xh => gamma * xh + beta) (rescaled mu (sqrt (v + epsilon)) batch)).
  split; [exact Ev |]. split.
  - unfold BatchNorm.forward. now rewrite E.
  - split; [| split; assumption].
    now rewrite length_map, rescaled_length.
Qed.

Lemma batch_norm_output_stats_witness :
  [0; 2] <> [] /\ 0 < 3 /\
  exists var_B ys,
    Stats.variance [0; 2] = Some var_B /\
    BatchNorm.forward 3 2 5 [0; 2] = Some ys /\
    Stats.mean ys = Some 5.
Proof.
  split; [discriminate |]. split; [lra |].
  destruct (batch_norm_output_stats 3 2 5 [0; 2])
    as (v & ys & Ev & E & _ & Em & _); [discriminate | lra |].
  exists v, ys. repeat split; assumption.
Defined.

(** X10: batch normalization ignores a constant added to every value of the
    mini-batch (such as a bias of the layer before it): the normalized values
    and the output are unchanged, whatever [epsilon] is, also when they have
    no value. *)
Theorem batch_norm_shift_invariant (c epsilon gamma beta : R) (batch : list R) :
  BatchNorm.normalize epsilon (map (fun x => x + c) batch)
  = BatchNorm.normalize epsilon batch
  /\ BatchNorm.forward epsilon gamma beta (map (fun x => x + c) batch)
     = BatchNorm.forward epsilon gamma beta batch.
Proof.
  split.
  - apply batch_normalize_shift.
  - unfold BatchNorm.forward. now rewrite batch_normalize_shift.
Qed.

(** X11: multiplying every value of the mini-batch by [a > 0] (and adding
    [b]) has the effect of dividing [epsilon] by [a * a]: the output with
    [a * a * epsilon] on the new values is the output with [epsilon] on the
    old ones. *)
Theorem batch_norm_scale_epsilon (a b epsilon gamma beta : R) (batch : list R) :
  0 < a ->
  BatchNorm.forward (a * a * epsilon) gamma beta (map (fun x => a * x + b) batch)
  = BatchNorm.forward epsilon gamma beta batch.
Proof.
  intros Ha. unfold BatchNorm.forward.
  now rewrite batch_normalize_affine.
Qed.

Lemma batch_norm_scale_epsilon_witness :
  0 < 2 /\
  BatchNorm.forward (2 * 2 * 3) 1 0 (map (fun x => 2 * x + 7) [0; 2])
  = BatchNorm.forward 3 1 0 [0; 2].
Proof.
  split; [lra |]. apply (batch_norm_scale_epsilon 2 7 3 1 0 [0; 2]). lra.
Defined.

(** X12: on a mini-batch of equal values (in particular a mini-batch of one
    value) and a positive [epsilon], every normalized value is 0 and every
    output is [beta]: the value itself is lost. *)
Theorem batch_norm_constant_batch (c epsilon gamma beta : R) (n : nat) :
  0 < epsilon ->
  BatchNorm.normalize epsilon (repeat c (S n)) = Some (repeat 0 (S n)) /\
  BatchNorm.forward epsilon gamma beta (repeat c (S n)) = Some (repeat beta (S n)).
Proof.
  intros He.
  assert (BatchNorm.normalize epsilon (repeat c (S n)) = Some (repeat 0 (S n)))
    as E.
  { unfold BatchNorm.normalize.
    rewrite mean_constant, variance_constant.
    cbv beta iota delta [Guarded.bind BatchNorm.x_hat].
    rewrite traverse_rescaled
      by (apply Rgt_not_eq, Rlt_gt, sqrt_shift_pos; lra).
    f_equal. unfold rescaled. rewrite map_repeat. f_equal.
    unfold Rdiv. ring. }
  split; [exact E |].
  unfold BatchNorm.forward. rewrite E.
  cbv beta iota delta [Guarded.bind]. f_equal.
  rewrite map_repeat. f_equal. unfold BatchNorm.y. ring.
Qed.

Lemma batch_norm_constant_batch_witness :
  0 < 1 /\
  BatchNorm.normalize 1 [7] = Some [0] /\
  BatchNorm.forward 1 2 5 [7] = Some [5].
Proof.
  split; [lra |]. apply (batch_norm_constant_batch 7 1 2 5 0). lra.
Defined.

(** X13: with [epsilon = 0] batch normalization is the z-score of the
    mini-batch, and then a mini-batch of equal values has no normalized
    values: the division by zero that [epsilon] is there to avoid. *)
Theorem batch_norm_epsilon_zero :
  (forall batch,
     BatchNorm.normalize 0 batch = ZScore.standardize_sample batch) /\
  (forall c n, BatchNorm.normalize 0 (repeat c (S n)) = None).
Proof.
  split.
  - intros l. unfold BatchNorm.normalize, ZScore.standardize_sample, Stats.std.
    destruct (Stats.mean l) as [mu |]; [| reflexivity].
    destruct (Stats.variance l) as [v |]; [| reflexivity].
    cbv beta iota delta [Guarded.bind BatchNorm.x_hat ZScore.standardize].
    now rewrite Rplus_0_r.
  - intros c n. unfold BatchNorm.normalize.
    rewrite mean_constant, variance_constant.
    cbv beta iota delta [Guarded.bind BatchNorm.x_hat].
    rewrite Rplus_0_r, sqrt_0.
    apply traverse_stuck, div_undefined.
Qed.

(** X14: for a mini-batch of [n >= 1] values and a positive [epsilon], the
    squares of the normalized values add up to
    [n * sigma_B^2 / (sigma_B^2 + epsilon)], so every normalized value has a
    square below [n]. *)
Theorem batch_norm_bounded (epsilon : R) (batch : list R) :
  batch <> [] -> 0 < epsilon ->
  exists var_B xs,
    Stats.variance batch = Some var_B /\
    BatchNorm.normalize epsilon batch = Some xs /\
    Stats.total (map (fun z => z * z) xs)
    = Stats.count batch * (var_B / (var_B + epsilon)) /\
    Forall (fun z => z * z < Stats.count batch) xs.
Proof.
  intros Hl He.
  destruct (batch_normalize_defined epsilon batch Hl He)
    as (mu & v & Em & Ev & Hv & E).
  set (xs := rescaled mu (sqrt (v + epsilon)) batch) in *.
  pose proof (batch_normalize_variance epsilon batch mu v Em Ev He) as Evx.
  fold xs in Evx.
  pose proof (mean_rescaled mu (sqrt (v + epsilon)) batch Em) as Emx.
  fold xs in Emx.
  pose proof (count_pos batch Hl) as Hc.
  pose proof (variance_value xs 0 _ Emx Evx) as E1.
  unfold xs in E1 at 2. rewrite rescaled_count in E1.
  assert (Stats.total (Stats.sq_dev 0 xs)
          = Stats.count batch * (v / (v + epsilon))) as Et.
  { rewrite E1. field. lra. }
  assert (v / (v + epsilon) < 1) as Hlt.
  { apply (Rmult_lt_reg_r (v + epsilon)); [lra |].
    unfold Rdiv. rewrite Rmult_assoc, Rinv_l by lra. lra. }
  exists v, xs. split; [exact Ev |]. split; [exact E |]. split.
  - rewrite <- Et. unfold Stats.sq_dev. f_equal. apply map_ext.
    intros z. ring.
  - apply Forall_forall. intros z Hz.
    pose proof (sq_dev_le_total 0 xs z Hz) as Hle. rewrite Et in Hle.
    replace (z * z) with ((z - 0) * (z - 0)) by ring.
    eapply Rle_lt_trans; [exact Hle |]. nra.
Qed.

Lemma batch_norm_bounded_witness :
  [0; 2] <> [] /\ 0 < 3 /\
  exists xs,
    BatchNorm.normalize 3 [0; 2] = Some xs /\
    Forall (fun z => z * z < Stats.count [0; 2]) xs.
Proof.
  split; [discriminate |]. split; [lra |].
  destruct (batch_norm_bounded 3 [0; 2]) as (v & xs & _ & E & _ & Hall);
    [discriminate | lra |].
  exists xs. split; assumption.
Defined.

End NormMore.

(** ** Layer normalization: outputs, units, edge cases *)

Section LayerNormMore.

Local Open Scope R_scope.

Lemma scale_shift_length (gamma beta : nat -> R) (xs : list R) :
  length (LayerNorm.scale_shift gamma beta xs) = length xs.
Proof. apply map_from_length. Qed.

(** The statistics of the normalized features of one example. *)
Lemma layer_normalize_stats (epsilon : R) (features : list R) :
  features <> [] -> 0 < epsilon ->
  exists var xs,
    Stats.variance features = Some var /\
    LayerNorm.normalize epsilon features = Some xs /\
    length xs = length features /\
    Stats.mean xs = Some 0 /\
    Stats.variance xs = Some (var / (var + epsilon)) /\
    0 <= var / (var + epsilon) < 1.
Proof.
  intros Hl He.
  destruct (layer_normalize_defined epsilon features Hl He)
    as (mu & v & Em & Ev & Hv & E).
  exists v, (rescaled mu (sqrt (v + epsilon)) features).
  split; [exact Ev |]. split; [exact E |].
  split; [apply rescaled_length |].
  split; [now apply mean_rescaled |].
  split; [now apply batch_normalize_variance |].
  assert (0 < v + epsilon) as Hpos by lra.
  split.
  - apply Rmult_le_pos; [assumption |].
    now apply Rlt_le, Rinv_0_lt_compat.
  - apply (Rmult_lt_reg_r (v + epsilon)); [assumption |].
    unfold Rdiv. rewrite Rmult_assoc, Rinv_l by lra. lra.
Qed.

(** On a batch whose examples all have a feature, the layer is the two
    formulas applied to each example. *)
Lemma layer_norm_examples
  (epsilon : R) (gamma beta : nat -> R) (acts : list (list R)) :
  Forall (fun x => x <> []) acts ->
  Layer.layer_norm epsilon gamma beta acts
  = map (LayerNorm.forward epsilon gamma beta) acts.
Proof.
  intros Hall. apply nth_error_ext. intros n.
  destruct (nth_error acts n) as [x |] eqn:E.
  - rewrite (map_nth_error _ _ _ E).
    apply layer_norm_example_forward; [exact E |].
    rewrite Forall_forall in Hall. apply Hall.
    now apply nth_error_In with (n := n).
  - apply nth_error_None in E.
    assert (nth_error (Layer.layer_norm epsilon gamma beta acts) n = None) as ->.
    { apply nth_error_None. unfold Layer.layer_norm, Layer.forward.
      now rewrite map_from_length. }
    symmetry. apply nth_error_None. now rewrite length_map.
Qed.

(** Gains and biases applied to normalized values that are all zero. *)
Lemma scale_shift_zeros (gamma beta : nat -> R) (k m : nat) :
  Indexed.map_from (fun j xh => LayerNorm.y (gamma j) (beta j) xh) k (repeat 0 m)
  = map beta (seq k m).
Proof.
  revert k. induction m as [| m IH]; intros k; simpl; [reflexivity |].
  rewrite IH. f_equal. unfold LayerNorm.y. ring.
Qed.

Lemma map_const_seq (b : R) (k m : nat) :
  map (fun _ : nat => b) (seq k m) = repeat b m.
Proof.
  revert k. induction m as [| m IH]; intros k; simpl; [reflexivity |].
  now rewrite IH.
Qed.

(** X15: for an example with at least one feature and a positive [epsilon],
    the layer-normalized features exist, one per feature, and across the
    features they have mean exactly 0 and variance exactly
    [sigma^2 / (sigma^2 + epsilon)], a number in [0, 1). *)
Theorem layer_norm_stats (epsilon : R) (features : list R) :
  features <> [] -> 0 < epsilon ->
  exists var xs,
    Stats.variance features = Some var /\
    LayerNorm.normalize epsilon features = Some xs /\
    length xs = length features /\
    Stats.mean xs = Some 0 /\
    Stats.variance xs = Some (var / (var + epsilon)) /\
    0 <= var / (var + epsilon) < 1.
Proof. exact (layer_normalize_stats epsilon features). Qed.

Lemma layer_norm_stats_witness :
  [0; 2] <> [] /\ 0 < 3 /\
  exists var xs,
    Stats.variance [0; 2] = Some var /\
    LayerNorm.normalize 3 [0; 2] = Some xs /\
    Stats.mean xs = Some 0 /\
    Stats.variance xs = Some (var / (var + 3)).
Proof.
  split; [discriminate |]. split; [lra |].
  destruct (layer_norm_stats 3 [0; 2])
    as (v & xs & Ev & E & _ & Emx & Evx & _); [discriminate | lra |].
  exists v, xs. repeat split; assumption.
Defined.

(** X16: layer normalization ignores a constant added to every feature of an
    example, and multiplying every feature by [a > 0] has the effect of
    dividing [epsilon] by [a * a]; this for any gains and biases. *)
Theorem layer_norm_affine
  (a b epsilon : R) (gamma beta : nat -> R) (features : list R) :
  0 < a ->
  LayerNorm.forward epsilon gamma beta (map (fun x => x + b) features)
  = LayerNorm.forward epsilon gamma beta features
  /\ LayerNorm.forward (a * a * epsilon) gamma beta (map (fun x => a * x + b) features)
     = LayerNorm.forward epsilon gamma beta features.
Proof.
  intros Ha. unfold LayerNorm.forward. rewrite !layer_normalize_eq. split.
  - now rewrite batch_normalize_shift.
  - now rewrite batch_normalize_affine.
Qed.

Lemma layer_norm_affine_witness :
  0 < 2 /\
  LayerNorm.forward 3 (fun _ => 1) (fun _ => 0) (map (fun x => x + 7) [0; 2])
  = LayerNorm.forward 3 (fun _ => 1) (fun _ => 0) [0; 2]
  /\ LayerNorm.forward (2 * 2 * 3) (fun _ => 1) (fun _ => 0)
       (map (fun x => 2 * x + 7) [0; 2])
     = LayerNorm.forward 3 (fun _ => 1) (fun _ => 0) [0; 2].
Proof.
  split; [lra |].
  apply (layer_norm_affine 2 7 3 (fun _ => 1) (fun _ => 0) [0; 2]). lra.
Defined.

(** X17: on a batch of any size whose examples all have at least one
    feature, with a positive [epsilon], the layer returns one output per
    example, each with a value: the gains and biases applied to the
    normalized features of that example, which are as many as its features
    and have mean 0. *)
Theorem layer_norm_batch_defined
  (epsilon : R) (gamma beta : nat -> R) (batch : list (list R)) :
  0 < epsilon ->
  Forall (fun x => x <> []) batch ->
  length (Layer.layer_norm epsilon gamma beta batch) = length batch /\
  Forall2 (fun x o => exists xs,
             LayerNorm.normalize epsilon x = Some xs /\
             length xs = length x /\
             Stats.mean xs = Some 0 /\
             o = Some (LayerNorm.scale_shift gamma beta xs))
    batch (Layer.layer_norm epsilon gamma beta batch).
Proof.
  intros He Hall. rewrite (layer_norm_examples epsilon gamma beta batch Hall).
  split; [apply length_map |].
  induction Hall as [| x xs Hx _ IH]; simpl; constructor; [| exact IH].
  destruct (layer_normalize_stats epsilon x Hx He)
    as (v & zs & _ & E & Hlen & Em & _).
  exists zs. repeat split; try assumption.
  unfold LayerNorm.forward. now rewrite E.
Qed.

Lemma layer_norm_batch_defined_witness :
  0 < 1 /\
  Forall (fun x : list R => x <> []) [[1; 3]; [7]] /\
  length (Layer.layer_norm 1 (fun _ => 2) (fun _ => 5) [[1; 3]; [7]]) = 2%nat /\
  Forall2 (fun x o => exists xs,
             LayerNorm.normalize 1 x = Some xs /\
             length xs = length x /\
             Stats.mean xs = Some 0 /\
             o = Some (LayerNorm.scale_shift (fun _ => 2) (fun _ => 5) xs))
    [[1; 3]; [7]] (Layer.layer_norm 1 (fun _ => 2) (fun _ => 5) [[1; 3]; [7]]).
Proof.
  assert (Forall (fun x : list R => x <> []) [[1; 3]; [7]]) as Hall
    by (repeat constructor; discriminate).
  assert (0 < 1) as He by lra.
  split; [exact He |]. split; [exact Hall |].
  exact (layer_norm_batch_defined 1 (fun _ => 2) (fun _ => 5) [[1; 3]; [7]] He Hall).
Defined.

(** X18: layer normalization of an example whose features are all equal (in
    particular an example with one feature), with a positive [epsilon],
    outputs for every feature the bias of that feature; with one bias [b]
    shared by the features, it outputs [b] for every feature. *)
Theorem layer_norm_constant_features
  (c epsilon : R) (gamma beta : nat -> R) (n : nat) :
  0 < epsilon ->
  LayerNorm.forward epsilon gamma beta (repeat c (S n))
  = Some (map beta (seq 0 (S n)))
  /\ (forall g b : R,
        LayerNorm.forward epsilon (fun _ => g) (fun _ => b) (repeat c (S n))
        = Some (repeat b (S n))).
Proof.
  intros He.
  assert (LayerNorm.normalize epsilon (repeat c (S n)) = Some (repeat 0 (S n)))
    as E.
  { unfold LayerNorm.normalize.
    rewrite mean_constant, variance_constant.
    cbv beta iota delta [Guarded.bind LayerNorm.x_hat].
    rewrite traverse_rescaled
      by (apply Rgt_not_eq, Rlt_gt, sqrt_shift_pos; lra).
    f_equal. unfold rescaled. rewrite map_repeat. f_equal.
    unfold Rdiv. ring. }
  assert (forall gm bt : nat -> R,
            LayerNorm.forward epsilon gm bt (repeat c (S n))
            = Some (map bt (seq 0 (S n)))) as Hf.
  { intros gm bt. unfold LayerNorm.forward. rewrite E.
    cbv beta iota delta [Guarded.bind]. f_equal.
    apply scale_shift_zeros. }
  split; [apply Hf |].
  intros g b. rewrite Hf. f_equal. apply map_const_seq.
Qed.

Lemma layer_norm_constant_features_witness :
  0 < 1 /\
  LayerNorm.forward 1 (fun _ => 2) (fun _ => 5) [7] = Some [5].
Proof.
  split; [lra |].
  exact (proj1 (layer_norm_constant_features 7 1 (fun _ => 2) (fun _ => 5) 0
                  ltac:(lra))).
Defined.

(** The batch-normalization layer on examples of one feature is the
    batch-normalization formulas on the values of that feature. *)
Lemma column_singletons (l : list R) :
  Layer.column 0 (map (fun v => [v]) l) = l.
Proof.
  unfold Layer.column.
  induction l as [| v vs IH]; simpl; [reflexivity | now f_equal].
Qed.

Lemma batch_norm_layer_single_feature
  (epsilon : R) (gamma beta : nat -> R) (l ys : list R) :
  BatchNorm.forward epsilon (gamma 0%nat) (beta 0%nat) l = Some ys ->
  Layer.batch_norm epsilon gamma beta (map (fun v => [v]) l)
  = map (fun yv => Some [yv]) ys.
Proof.
  unfold BatchNorm.forward, BatchNorm.normalize.
  destruct (Stats.mean l) as [mu |] eqn:Em; [| discriminate].
  destruct (Stats.variance l) as [var |] eqn:Ev; [| discriminate].
  cbv beta iota delta [Guarded.bind BatchNorm.x_hat].
  destruct (Guarded.traverse (fun x => Guarded.div (x - mu) (sqrt (var + epsilon))) l)
    as [xs |] eqn:E; [| discriminate].
  intros Eys. injection Eys as <-.
  apply traverse_div_value in E as [Hd ->]; [| exact (mean_nonempty l mu Em)].
  assert (forall i v,
            Layer.entry Layer.OverBatch epsilon gamma beta
              (map (fun v => [v]) l) i 0 v
            = Some (BatchNorm.y (gamma 0%nat) (beta 0%nat)
                      ((v - mu) / sqrt (var + epsilon)))) as Hentry.
  { intros i v. unfold Layer.entry. simpl Layer.pool.
    rewrite column_singletons, Em, Ev.
    cbv beta iota delta [Guarded.bind Layer.x_hat Layer.y BatchNorm.x_hat].
    now rewrite div_defined. }
  assert (forall (n : nat) (l' : list R),
            Indexed.map_from
              (fun i example =>
                 Indexed.traverse_from
                   (fun j x =>
                      Layer.entry Layer.OverBatch epsilon gamma beta
                        (map (fun v => [v]) l) i j x)
                   0 example)
              n (map (fun v => [v]) l')
            = map (fun v => Some [BatchNorm.y (gamma 0%nat) (beta 0%nat)
                                    ((v - mu) / sqrt (var + epsilon))]) l')
    as Hgen.
  { intros n l'. revert n.
    induction l' as [| w ws IH]; intros n; simpl; [reflexivity |].
    rewrite Hentry. cbv beta iota delta [Guarded.bind].
    now rewrite IH. }
  unfold Layer.batch_norm, Layer.forward, rescaled.
  rewrite Hgen, !map_map. reflexivity.
Qed.

End LayerNormMore.
